(** * Event Intelligence Platform: the deterministic risk classifier

    A shallow embedding of [lib/classifier.ts] and the properties of its
    scoring pipeline:

      keyword matching -> category -> severity boost -> article score
      -> weighted batch score -> impact level, breakdown, dominant category.

    Conventions of the embedding.

    - A JavaScript [number] is a binary64 floating-point value, the kernel's
      primitive [float]: [*], [+], [/], [<] and [<=] are the IEEE 754
      operations the engine runs, and the weights [0.90], [0.80], ... are
      the doubles nearest to these decimals.  Array lengths and the counters
      the engine only increments by one are integers ([Z]); they enter the
      arithmetic through [Z2F], which is exact below [2^53].  Rational
      numbers ([Q]) appear in the proofs only, as the values of doubles.
    - A JavaScript string is a [string] of bytes.  Every keyword of the
      tables is ASCII, so substring search gives the same answer on the
      UTF-8 bytes of a text as on its UTF-16 code units.
    - [String.prototype.toLowerCase] is a method of the class [JsString];
      the general theorems hold for every implementation of it, and the
      instance [ascii_lowercase] is used to evaluate concrete texts.
    - An object used as an ordered map ([Partial<Record<RiskCategory,
      string[]>>]) is an association list in insertion order, which is the
      order [Object.entries] enumerates. *)

From Stdlib Require Import Bool List String Ascii ZArith Lia.
From Stdlib Require Import QArith Qpower Lqa.
From Stdlib Require Import Uint63 Floats.
Import ListNotations.

Set Warnings "-inexact-float".

Local Open Scope string_scope.
Local Open Scope list_scope.
Local Open Scope Z_scope.

(** ** Types *)

Inductive RiskCategory : Set :=
  | Geopolitical
  | Monetary
  | Commodity
  | SupplyChain
  | General.

Inductive ImpactLevel : Set := LOW | MEDIUM | HIGH.

Definition RiskCategory_eqb (a b : RiskCategory) : bool :=
  match a, b with
  | Geopolitical, Geopolitical | Monetary, Monetary | Commodity, Commodity
  | SupplyChain, SupplyChain | General, General => true
  | _, _ => false
  end.

(** [source : { name: string } | string] *)
Inductive ArticleSource : Set :=
  | SourceObject (name : option string)
  | SourceString (s : string).

Record RawArticle : Set := {
  raw_title       : string;
  raw_description : option string;     (* string | null *)
  raw_source      : ArticleSource;
  raw_url         : string;
  raw_publishedAt : string
}.

(** [Partial<Record<RiskCategory, string[]>>], in insertion order. *)
Definition KeywordMatches : Set := list (RiskCategory * list string).

Record ClassifiedArticle : Set := {
  title          : string;
  description    : string;
  source         : string;
  url            : string;
  publishedAt    : string;
  riskCategory   : RiskCategory;
  articleScore   : float;
  keywordMatches : KeywordMatches
}.

(** [CategoryBreakdown], the shape of both the percentages (numbers) and
    the counters (integers) of [classifyArticles]. *)
Record Breakdown (A : Set) : Set := {
  cbGeopolitical : A;
  cbMonetary     : A;
  cbCommodity    : A;
  cbSupplyChain  : A;
  cbGeneral      : A
}.
Arguments cbGeopolitical {A} _.
Arguments cbMonetary {A} _.
Arguments cbCommodity {A} _.
Arguments cbSupplyChain {A} _.
Arguments cbGeneral {A} _.

Definition CategoryBreakdown : Set := Breakdown float.

Record AssessmentResult : Set := {
  overallScore      : float;
  impactLevel       : ImpactLevel;
  dominantCategory  : RiskCategory;
  categoryBreakdown : CategoryBreakdown;
  articles          : list ClassifiedArticle
}.

(** ** The JavaScript runtime the engine relies on *)

Class JsString : Set := toLowerCase : string -> string.

Definition ascii_lower (c : ascii) : ascii :=
  let n := nat_of_ascii c in
  if ((65 <=? n) && (n <=? 90))%nat then ascii_of_nat (n + 32) else c.

Fixpoint map_string (f : ascii -> ascii) (s : string) : string :=
  match s with
  | EmptyString => EmptyString
  | String c s' => String (f c) (map_string f s')
  end.

#[export] Instance ascii_lowercase : JsString := map_string ascii_lower.

(** [s.includes(w)]: [w] occurs in [s] as a contiguous substring. *)
Fixpoint includes (s w : string) : bool :=
  prefix w s ||
  match s with
  | EmptyString => false
  | String _ s' => includes s' w
  end.

(** [obj[key] = value] on an ordered object: an existing key keeps its
    place, a new key goes last. *)
Fixpoint obj_set (obj : KeywordMatches) (key : RiskCategory)
    (value : list string) : KeywordMatches :=
  match obj with
  | [] => [(key, value)]
  | (k, v) :: rest =>
      if RiskCategory_eqb k key then (k, value) :: rest
      else (k, v) :: obj_set rest key value
  end.

(** An integer as a number; exact for [|k| < 2^53]. *)
Definition Z2F (k : Z) : float :=
  if k <? 0 then (- of_uint63 (Uint63.of_Z (- k)))%float
  else of_uint63 (Uint63.of_Z k).

(** [floor (x + 1/2)] for [x = +-m * 2^e] with [e < 0]. *)
Definition roundHalfUp (s : bool) (m : positive) (e : Z) : Z :=
  Z.shiftr (2 * cond_Zopp s (Zpos m) + 2 ^ (- e)) (1 - e).

(** [Math.round]: the integer nearest to [x], a half going towards
    [+infinity], computed on the exact value [+-m * 2^e] of [x]; a result
    0 keeps the sign of [x].  NaN, the infinities, the zeros and the
    numbers of exponent [e >= 0] (integers of magnitude [2^52] and more)
    come back unchanged. *)
Definition Math_round (x : float) : float :=
  match Prim2SF x with
  | S754_finite s m e =>
      if 0 <=? e then x
      else
        let k := roundHalfUp s m e in
        if k =? 0 then (if s then (-0)%float else 0%float) else Z2F k
  | _ => x
  end.

(** [Math.max] and [Math.min] of two numbers: NaN if one of them is, and
    [-0] below [+0]. *)
Definition Math_max (a b : float) : float :=
  if is_nan a || is_nan b then nan
  else if (a <? b)%float then b
  else if (b <? a)%float then a
  else if get_sign a then b else a.

Definition Math_min (a b : float) : float :=
  if is_nan a || is_nan b then nan
  else if (a <? b)%float then a
  else if (b <? a)%float then b
  else if get_sign a then a else b.

(** ** Keyword dictionaries *)

Definition KEYWORDS : list (RiskCategory * list string) :=
  [ (Geopolitical,
      [ "war"; "conflict"; "sanction"; "geopolitic"; "military"; "coup";
        "invasion"; "nuclear"; "treaty"; "nato"; "terrorism"; "ceasefire";
        "troops"; "missile"; "airstrike"; "alliance"; "diplomatic crisis";
        "political instability"; "rebel"; "insurgency"; "annexation" ]);
    (Monetary,
      [ "inflation"; "interest rate"; "central bank"; "federal reserve";
        "fed rate"; "ecb"; "monetary policy"; "rate hike"; "rate cut";
        "quantitative easing"; "currency"; "deflation"; "stagflation";
        "bond yield"; "treasury"; "repo rate"; "liquidity" ]);
    (Commodity,
      [ "oil"; "gold"; "commodity"; "energy"; "crude oil"; "brent";
        "opec"; "fuel"; "copper"; "wheat"; "food price"; "grain";
        "natural gas"; "lng"; "rare earth"; "silver"; "coffee" ]);
    (SupplyChain,
      [ "supply chain"; "logistics"; "shortage"; "disruption"; "trade war";
        "tariff"; "import ban"; "export ban"; "shipping"; "port";
        "semiconductor"; "chip shortage"; "freight"; "factory shutdown";
        "manufacturing"; "inventory"; "bottleneck" ]);
    (General, []) ].

(** Base weight per category. *)
Definition CATEGORY_WEIGHT (cat : RiskCategory) : float :=
  match cat with
  | Geopolitical => 1.00
  | Monetary     => 0.90
  | Commodity    => 0.80
  | SupplyChain  => 0.70
  | General      => 0.30
  end%float.

(** ** Severity tiers *)

Record SeverityTier : Set := { boost : float; words : list string }.

Definition SEVERITY_TIERS : list SeverityTier :=
  [ {| boost := 40%float;
       words :=
         [ "war"; "crash"; "collapse"; "invasion"; "nuclear"; "catastrophic";
           "emergency"; "meltdown"; "default"; "hyperinflation"; "famine" ] |};
    {| boost := 25%float;
       words :=
         [ "surge"; "spike"; "sanction"; "recession"; "shock"; "escalation";
           "plunge"; "ban"; "freeze"; "blockade"; "halt" ] |};
    {| boost := 12%float;
       words :=
         [ "rise"; "increase"; "concern"; "tension"; "risk"; "volatile";
           "warning"; "threat"; "instability"; "downgrade"; "slowdown" ] |} ].

Definition BASELINE_BOOST : float := 5%float.

(** ** Private helpers *)

Definition lc `{JsString} (text : string) : string := toLowerCase text.

(** One turn of the loop of [matchKeywords]. *)
Definition matchStep (lower : string) (result : KeywordMatches)
    (entry : RiskCategory * list string) : KeywordMatches :=
  let (cat, words) := entry in
  let matched := filter (fun w => includes lower w) words in
  if (0 <? List.length matched)%nat then obj_set result cat matched
  else result.

Definition matchKeywords `{JsString} (text : string) : KeywordMatches :=
  let lower := lc text in
  fold_left (matchStep lower) KEYWORDS [].

(** One turn of the loop of [pickCategory] (and of the dominant-category
    loop, which has the same body): the state is [(best, bestScore)]. *)
Definition pickStep (count : Z) (cat : RiskCategory)
    (st : RiskCategory * float) : RiskCategory * float :=
  let score := (Z2F count * CATEGORY_WEIGHT cat)%float in
  if (snd st <? score)%float then (cat, score) else st.

Definition pickCategory (matches : KeywordMatches) : RiskCategory :=
  fst (fold_left
         (fun st (entry : RiskCategory * list string) =>
            let (cat, words) := entry in
            pickStep (Z.of_nat (List.length words)) cat st)
         matches (General, (-1)%float)).

Fixpoint scanTiers (tiers : list SeverityTier) (lower : string) : float :=
  match tiers with
  | [] => BASELINE_BOOST
  | tier :: rest =>
      if existsb (fun w => includes lower w) (words tier) then boost tier
      else scanTiers rest lower
  end.

Definition severityBoost `{JsString} (text : string) : float :=
  scanTiers SEVERITY_TIERS (lc text).

Definition clamp (value min max : float) : float :=
  Math_max min (Math_min max value).

(** ** Scoring *)

Definition scoreArticle `{JsString} (category : RiskCategory)
    (text : string) : float :=
  let base := (CATEGORY_WEIGHT category * 60)%float in
  let boost := severityBoost text in
  clamp (Math_round (base + boost)) 0 100.

Definition toImpactLevel (score : float) : ImpactLevel :=
  if (score <=? 30)%float then LOW
  else if (score <=? 70)%float then MEDIUM
  else HIGH.

(** ** Public API *)

(** The body of the [map] callback of [classifyArticles]. *)
Definition articleText (a : RawArticle) : string :=
  (raw_title a ++ " " ++
   match raw_description a with Some d => d | None => "" end)%string.

Definition classifyArticle `{JsString} (a : RawArticle) : ClassifiedArticle :=
  let text := articleText a in
  let matches := matchKeywords text in
  let category := pickCategory matches in
  let score := scoreArticle category text in
  let sourceName :=
    match raw_source a with
    | SourceString s => s
    | SourceObject name =>
        match name with Some n => n | None => "Unknown" end
    end in
  {| title          := raw_title a;
     description    := match raw_description a with Some d => d | None => "" end;
     source         := sourceName;
     url            := raw_url a;
     publishedAt    := raw_publishedAt a;
     riskCategory   := category;
     articleScore   := score;
     keywordMatches := matches |}.

(** Step 2: the loop accumulating [(weightedSum, totalWeight)]. *)
Definition weightedSums (classified : list ClassifiedArticle)
    : float * float :=
  fold_left
    (fun (acc : float * float) a =>
       let w := CATEGORY_WEIGHT (riskCategory a) in
       (fst acc + articleScore a * w, snd acc + w)%float)
    classified (0%float, 0%float).

Definition computeOverallScore (classified : list ClassifiedArticle)
    : float :=
  let (weightedSum, totalWeight) := weightedSums classified in
  if (0 <? totalWeight)%float
  then clamp (Math_round (weightedSum / totalWeight)) 0 100
  else 0%float.

(** Step 3: [counts[cat]++] and the percentages. *)
Definition cb_get {A : Set} (b : Breakdown A) (cat : RiskCategory) : A :=
  match cat with
  | Geopolitical => cbGeopolitical b
  | Monetary     => cbMonetary b
  | Commodity    => cbCommodity b
  | SupplyChain  => cbSupplyChain b
  | General      => cbGeneral b
  end.

Definition cb_incr (b : Breakdown Z) (cat : RiskCategory) : Breakdown Z :=
  {| cbGeopolitical := cbGeopolitical b + (if RiskCategory_eqb cat Geopolitical then 1 else 0);
     cbMonetary     := cbMonetary b + (if RiskCategory_eqb cat Monetary then 1 else 0);
     cbCommodity    := cbCommodity b + (if RiskCategory_eqb cat Commodity then 1 else 0);
     cbSupplyChain  := cbSupplyChain b + (if RiskCategory_eqb cat SupplyChain then 1 else 0);
     cbGeneral      := cbGeneral b + (if RiskCategory_eqb cat General then 1 else 0) |}.

(** [Object.entries] of a breakdown: the keys in the order the literal
    lists them. *)
Definition cb_entries {A : Set} (b : Breakdown A) : list (RiskCategory * A) :=
  [ (Geopolitical, cbGeopolitical b); (Monetary, cbMonetary b);
    (Commodity, cbCommodity b); (SupplyChain, cbSupplyChain b);
    (General, cbGeneral b) ].

Definition zeroCounts : Breakdown Z :=
  {| cbGeopolitical := 0; cbMonetary := 0; cbCommodity := 0;
     cbSupplyChain := 0; cbGeneral := 0 |}.

Definition countCategories (classified : list ClassifiedArticle)
    : Breakdown Z :=
  fold_left (fun counts a => cb_incr counts (riskCategory a))
    classified zeroCounts.

(** [classified.length || 1] *)
Definition totalOf (classified : list ClassifiedArticle) : Z :=
  let n := Z.of_nat (List.length classified) in
  if n =? 0 then 1 else n.

Definition percentage (count total : Z) : float :=
  Math_round ((Z2F count / Z2F total) * 100)%float.

Definition computeBreakdown (counts : Breakdown Z) (total : Z)
    : CategoryBreakdown :=
  {| cbGeopolitical := percentage (cbGeopolitical counts) total;
     cbMonetary     := percentage (cbMonetary counts) total;
     cbCommodity    := percentage (cbCommodity counts) total;
     cbSupplyChain  := percentage (cbSupplyChain counts) total;
     cbGeneral      := percentage (cbGeneral counts) total |}.

(** Step 4: the dominant category. *)
Definition computeDominant (counts : Breakdown Z) : RiskCategory :=
  fst (fold_left
         (fun st (entry : RiskCategory * Z) =>
            let (cat, count) := entry in pickStep count cat st)
         (cb_entries counts) (General, (-1)%float)).

Definition classifyArticles `{JsString} (rawArticles : list RawArticle)
    : AssessmentResult :=
  let classified := map classifyArticle rawArticles in
  let overallScore := computeOverallScore classified in
  let counts := countCategories classified in
  let total := totalOf classified in
  let categoryBreakdown := computeBreakdown counts total in
  let dominant := computeDominant counts in
  {| overallScore      := overallScore;
     impactLevel       := toImpactLevel overallScore;
     dominantCategory  := dominant;
     categoryBreakdown := categoryBreakdown;
     articles          := classified |}.

(** * Properties *)

(** ** Keyword matcher *)

Lemma RiskCategory_eqb_eq (a b : RiskCategory) :
  RiskCategory_eqb a b = true <-> a = b.
Proof. destruct a, b; split; intro E; try reflexivity; discriminate E. Qed.

Lemma obj_set_fresh (obj : KeywordMatches) key value :
  ~ In key (map fst obj) -> obj_set obj key value = obj ++ [(key, value)].
Proof.
  induction obj as [|[k v] rest IH]; intro F; [reflexivity|].
  cbn [obj_set]. destruct (RiskCategory_eqb k key) eqn:E.
  - apply RiskCategory_eqb_eq in E. exfalso. apply F. left. exact E.
  - cbn [app]. f_equal. apply IH. intro I. apply F. right. exact I.
Qed.

(** What one dictionary entry contributes to the mapping. *)
Definition selectMatches (lower : string)
    (entry : RiskCategory * list string) : KeywordMatches :=
  match filter (fun w => includes lower w) (snd entry) with
  | [] => []
  | matched => [(fst entry, matched)]
  end.

Lemma selectMatches_keys lower entry k :
  In k (map fst (selectMatches lower entry)) -> k = fst entry.
Proof.
  unfold selectMatches.
  destruct (filter _ (snd entry)); cbn; intro I; [destruct I|].
  destruct I as [E | []]. symmetry. exact E.
Qed.

Lemma matchStep_fresh lower result entry :
  ~ In (fst entry) (map fst result) ->
  matchStep lower result entry = result ++ selectMatches lower entry.
Proof.
  intro F. destruct entry as [cat ws]. unfold matchStep, selectMatches.
  cbn [fst snd] in *.
  destruct (filter (fun w => includes lower w) ws) as [|w ms].
  - cbn. symmetry. apply app_nil_r.
  - cbn [List.length Nat.ltb Nat.leb]. apply obj_set_fresh, F.
Qed.

Lemma matchLoop_flat_map lower (dict : list (RiskCategory * list string)) :
  NoDup (map fst dict) ->
  forall acc,
    (forall k, In k (map fst acc) -> ~ In k (map fst dict)) ->
    fold_left (matchStep lower) dict acc =
      acc ++ flat_map (selectMatches lower) dict.
Proof.
  induction dict as [|entry rest IH]; intros ND acc D.
  - cbn. symmetry. apply app_nil_r.
  - cbn [fold_left flat_map map] in *. inversion ND as [|? ? N1 N2]; subst.
    rewrite matchStep_fresh.
    + rewrite IH; [rewrite <- app_assoc; reflexivity | exact N2 |].
      intros k I. rewrite map_app in I. apply in_app_or in I.
      destruct I as [I | I].
      * intro R. apply (D k I). right. exact R.
      * apply selectMatches_keys in I. subst k. exact N1.
    + intro I. apply (D _ I). left. reflexivity.
Qed.

Lemma KEYWORDS_keys : map fst KEYWORDS =
  [Geopolitical; Monetary; Commodity; SupplyChain; General].
Proof. reflexivity. Qed.

Lemma KEYWORDS_NoDup : NoDup (map fst KEYWORDS).
Proof.
  rewrite KEYWORDS_keys.
  repeat constructor; cbn; intuition discriminate.
Qed.

Lemma matchKeywords_flat_map `{JsString} (text : string) :
  matchKeywords text = flat_map (selectMatches (lc text)) KEYWORDS.
Proof.
  unfold matchKeywords.
  rewrite (matchLoop_flat_map (lc text) KEYWORDS KEYWORDS_NoDup []).
  - reflexivity.
  - intros k [].
Qed.

(** The matcher in the words of its contract: for every category, in
    the order of the enumeration, the keywords of its dictionary found in
    the lower-cased text, in dictionary order; a category with none is
    left out. *)
Definition keywordsOf (cat : RiskCategory) : list string :=
  match find (fun e => RiskCategory_eqb (fst e) cat) KEYWORDS with
  | Some e => snd e
  | None => []
  end.

Definition allCategories : list RiskCategory :=
  [Geopolitical; Monetary; Commodity; SupplyChain; General].

Definition keywordsFound `{JsString} (text : string) (cat : RiskCategory)
    : list string :=
  filter (fun w => includes (lc text) w) (keywordsOf cat).

Definition matchKeywords_spec `{JsString} (text : string) : KeywordMatches :=
  flat_map
    (fun cat =>
       match keywordsFound text cat with
       | [] => []
       | found => [(cat, found)]
       end)
    allCategories.

Lemma keywordsOf_KEYWORDS (cat : RiskCategory) (ws : list string) :
  In (cat, ws) KEYWORDS -> keywordsOf cat = ws.
Proof.
  unfold KEYWORDS. cbn [In]. intro I.
  repeat (destruct I as [E | I];
          [injection E as <- <-; vm_compute; reflexivity|]).
  destruct I.
Qed.

Lemma flat_map_ext_in {A B : Type} (f g : A -> list B) (l : list A) :
  (forall x, In x l -> f x = g x) -> flat_map f l = flat_map g l.
Proof.
  induction l as [|x l IH]; intro E; [reflexivity|].
  cbn [flat_map]. rewrite (E x (or_introl eq_refl)). f_equal.
  apply IH. intros y I. apply E. right. exact I.
Qed.

Lemma matchKeywords_refines `{JsString} (text : string) :
  matchKeywords text = matchKeywords_spec text.
Proof.
  rewrite matchKeywords_flat_map. unfold matchKeywords_spec.
  change allCategories with (map fst KEYWORDS).
  rewrite (flat_map_concat_map _ (map fst KEYWORDS)), map_map,
    <- flat_map_concat_map.
  apply flat_map_ext_in. intros [cat ws] I.
  unfold selectMatches, keywordsFound. cbn [fst snd].
  rewrite (keywordsOf_KEYWORDS cat ws I). reflexivity.
Qed.

Lemma matchKeywords_entries `{JsString} (text : string) cat ws :
  In (cat, ws) (matchKeywords text) <->
  ws = keywordsFound text cat /\ ws <> [].
Proof.
  rewrite matchKeywords_refines. unfold matchKeywords_spec.
  rewrite in_flat_map. split.
  - intros (c & _ & I).
    destruct (keywordsFound text c) as [|w r] eqn:E; [destruct I|].
    destruct I as [I | []]. injection I as <- <-.
    split; [symmetry; exact E | discriminate].
  - intros [-> N]. exists cat. split.
    + destruct cat; cbn; auto 6.
    + destruct (keywordsFound text cat); [congruence | left; reflexivity].
Qed.

Lemma matchKeywords_no_General `{JsString} (text : string) :
  ~ In General (map fst (matchKeywords text)).
Proof.
  intro I. apply in_map_iff in I. destruct I as ([c ws] & E & I).
  cbn in E. subst c. apply matchKeywords_entries in I.
  destruct I as [-> N]. apply N. reflexivity.
Qed.

(** C8.  The keyword matcher returns, for each category in enumeration
    order, the keywords of its dictionary that occur in the lower-cased
    text, in dictionary order, and leaves out the categories without a
    match; [General], whose dictionary is empty, is never a key; and the
    text [classifyArticles] hands to it is the title, a space, and the
    description or the empty string. *)
Theorem matchKeywords_contract `{JsString} (text : string) (a : RawArticle) :
  matchKeywords text = matchKeywords_spec text
  /\ (forall cat ws, In (cat, ws) (matchKeywords text) <->
        ws = filter (fun w => includes (lc text) w) (keywordsOf cat)
        /\ ws <> [])
  /\ keywordsOf General = []
  /\ ~ In General (map fst (matchKeywords text))
  /\ keywordMatches (classifyArticle a) =
       matchKeywords
         (raw_title a ++ " " ++
          match raw_description a with Some d => d | None => "" end)%string.
Proof.
  split; [apply matchKeywords_refines|].
  split; [intros cat ws; apply matchKeywords_entries|].
  split; [reflexivity|].
  split; [apply matchKeywords_no_General | reflexivity].
Qed.

(** Substring matching has no word boundaries and sees through case. *)
Example matchKeywords_warranty :
  matchKeywords "Extended WARRANTY on imported goods"
  = [(Geopolitical, ["war"]); (SupplyChain, ["port"])].
Proof. vm_compute. reflexivity. Qed.

(** ** Severity scanner *)

(** Whether the [i]-th tier (from 0) has a keyword in the lower-cased
    text. *)
Definition tierHit `{JsString} (i : nat) (text : string) : bool :=
  match nth_error SEVERITY_TIERS i with
  | Some tier => existsb (fun w => includes (lc text) w) (words tier)
  | None => false
  end.

Lemma tierHit_iff `{JsString} (i : nat) (text : string) :
  tierHit i text = true <->
  exists tier w,
    nth_error SEVERITY_TIERS i = Some tier /\ In w (words tier) /\
    includes (lc text) w = true.
Proof.
  unfold tierHit. split.
  - destruct (nth_error SEVERITY_TIERS i) as [tier|]; [|discriminate].
    intro E. apply existsb_exists in E. destruct E as (w & I & E).
    exists tier, w. auto.
  - intros (tier & w & -> & I & E). apply existsb_exists. exists w. auto.
Qed.

Lemma scanTiers_values (tiers : list SeverityTier) (lower : string) :
  In (scanTiers tiers lower) (map boost tiers ++ [BASELINE_BOOST]).
Proof.
  induction tiers as [|tier rest IH]; cbn [scanTiers map app].
  - left. reflexivity.
  - destruct (existsb _ (words tier)); [left; reflexivity | right; exact IH].
Qed.

(** C4.  The severity boost is the boost of the first tier, in the order
    +40, +25, +12, that has a keyword occurring in the lower-cased text,
    and the baseline +5 when no tier has one; the result is always one of
    these four numbers, so the boosts of several tiers are never added. *)
Theorem severityBoost_first_matching_tier `{JsString} (text : string) :
  severityBoost text =
    (if tierHit 0 text then 40
     else if tierHit 1 text then 25
     else if tierHit 2 text then 12
     else 5)%float
  /\ (forall i, tierHit i text = true <->
        exists tier w,
          nth_error SEVERITY_TIERS i = Some tier /\ In w (words tier) /\
          includes (lc text) w = true)
  /\ map boost SEVERITY_TIERS = [40; 25; 12]%float
  /\ In (severityBoost text) [40; 25; 12; 5]%float.
Proof.
  split; [reflexivity|].
  split; [intro i; apply tierHit_iff|].
  split; [reflexivity|].
  exact (scanTiers_values SEVERITY_TIERS (lc text)).
Qed.

(** A text with keywords of several tiers gets the boost of the highest
    one only. *)
Example severityBoost_not_additive :
  severityBoost "Prices SURGE as risk of war grows" = 40%float
  /\ severityBoost "Prices surge, risk rises" = 25%float
  /\ severityBoost "Analysts see a risk" = 12%float
  /\ severityBoost "Quiet day" = 5%float.
Proof. repeat split; vm_compute; reflexivity. Qed.

(** ** The empty batch *)

(** C2.  On the empty list the engine returns overall score 0, impact
    level LOW and five percentages equal to 0.  The total weight is 0, so
    the guard of the weighted average takes its [0] branch and the
    quotient is not evaluated; the divisor of the percentages is the
    substituted 1.  The function is total: no input makes it fail. *)
Theorem classifyArticles_empty `{JsString} :
  let r := classifyArticles [] in
  overallScore r = 0%float
  /\ impactLevel r = LOW
  /\ categoryBreakdown r =
       {| cbGeopolitical := 0%float; cbMonetary := 0%float;
          cbCommodity := 0%float; cbSupplyChain := 0%float;
          cbGeneral := 0%float |}
  /\ (0 <? snd (weightedSums (articles r)))%float = false
  /\ totalOf (articles r) = 1
  /\ articles r = [].
Proof. repeat split. Qed.

(** ** The order of binary64 numbers *)

Module FloatOrder.

(** [SFcompare] is the lexicographic order of a key: the sign class
    first, then the exponent, then the mantissa. *)
Definition SFkey (x : spec_float) : Z * Z * Z :=
  match x with
  | S754_nan => (0, 0, 0)
  | S754_zero _ => (0, 0, 0)
  | S754_infinity true => (-2, 0, 0)
  | S754_infinity false => (2, 0, 0)
  | S754_finite true m e => (-1, - e, Zneg m)
  | S754_finite false m e => (1, e, Zpos m)
  end.

Definition key_lt (a b : Z * Z * Z) : Prop :=
  fst (fst a) < fst (fst b) \/
  (fst (fst a) = fst (fst b) /\
   (snd (fst a) < snd (fst b) \/
    (snd (fst a) = snd (fst b) /\ snd a < snd b))).

Definition SFnotnan (x : spec_float) : Prop := x <> S754_nan.

Lemma SFcompare_Lt (x y : spec_float) :
  SFcompare x y = Some Lt <->
  SFnotnan x /\ SFnotnan y /\ key_lt (SFkey x) (SFkey y).
Proof.
  unfold SFnotnan, key_lt.
  destruct x as [sx|sx| |sx mx ex], y as [sy|sy| |sy my ey];
    try destruct sx; try destruct sy; cbn [SFcompare SFkey fst snd];
    try (split; [intro E; try discriminate E; repeat split; try discriminate; lia
                | intros (N1 & N2 & K); try congruence; try reflexivity; lia]).
  - rewrite Pos.compare_cont_spec. cbn [Pos.switch_Eq].
    destruct (Z.compare_spec ex ey) as [E|E|E];
      destruct (Pos.compare_spec mx my) as [F|F|F]; cbn [CompOpp];
        (split; [intro G; try discriminate G; repeat split; try discriminate; lia
                | intros (N1 & N2 & K); try reflexivity; lia]).
  - rewrite Pos.compare_cont_spec. cbn [Pos.switch_Eq].
    destruct (Z.compare_spec ex ey) as [E|E|E];
      destruct (Pos.compare_spec mx my) as [F|F|F];
        (split; [intro G; try discriminate G; repeat split; try discriminate; lia
                | intros (N1 & N2 & K); try reflexivity; lia]).
Qed.

Lemma SFcompare_Eq (x y : spec_float) :
  SFcompare x y = Some Eq <->
  SFnotnan x /\ SFnotnan y /\ SFkey x = SFkey y.
Proof.
  unfold SFnotnan.
  destruct x as [sx|sx| |sx mx ex], y as [sy|sy| |sy my ey];
    try destruct sx; try destruct sy; cbn [SFcompare SFkey];
    try (split; [intro E; try discriminate E; repeat split; discriminate
                | intros (N1 & N2 & K); try congruence; try reflexivity;
                  discriminate K]).
  - rewrite Pos.compare_cont_spec. cbn [Pos.switch_Eq].
    destruct (Z.compare_spec ex ey) as [E|E|E];
      destruct (Pos.compare_spec mx my) as [F|F|F]; cbn [CompOpp];
        (split; [intro G; try discriminate G; repeat split; try discriminate;
                 subst; reflexivity
                | intros (N1 & N2 & K); try reflexivity;
                  injection K as K1 K2; lia]).
  - rewrite Pos.compare_cont_spec. cbn [Pos.switch_Eq].
    destruct (Z.compare_spec ex ey) as [E|E|E];
      destruct (Pos.compare_spec mx my) as [F|F|F];
        (split; [intro G; try discriminate G; repeat split; try discriminate;
                 subst; reflexivity
                | intros (N1 & N2 & K); try reflexivity;
                  injection K as K1 K2; lia]).
Qed.

Lemma SFcompare_notnan (x y : spec_float) :
  SFnotnan x -> SFnotnan y -> exists c, SFcompare x y = Some c.
Proof.
  unfold SFnotnan. intros Nx Ny.
  destruct x, y; try congruence; cbn [SFcompare]; eexists; reflexivity.
Qed.

Lemma SFcompare_Gt (x y : spec_float) :
  SFcompare x y = Some Gt <-> SFcompare y x = Some Lt.
Proof.
  destruct x as [sx|sx| |sx mx ex], y as [sy|sy| |sy my ey];
    try destruct sx; try destruct sy; cbn [SFcompare];
    try (split; intro E; try discriminate E; reflexivity).
  - rewrite !Pos.compare_cont_spec. cbn [Pos.switch_Eq].
    rewrite (Z.compare_antisym ex ey), (Pos.compare_antisym mx my).
    destruct (ex ?= ey), (Pos.compare mx my); cbn [CompOpp];
      split; intro G; try discriminate G; reflexivity.
  - rewrite !Pos.compare_cont_spec. cbn [Pos.switch_Eq].
    rewrite (Z.compare_antisym ex ey), (Pos.compare_antisym mx my).
    destruct (ex ?= ey), (Pos.compare mx my); cbn [CompOpp];
      split; intro G; try discriminate G; reflexivity.
Qed.

Definition key_eq (a b : Z * Z * Z) : Prop :=
  fst (fst a) = fst (fst b) /\ snd (fst a) = snd (fst b) /\ snd a = snd b.

Lemma key_eq_iff (a b : Z * Z * Z) : a = b <-> key_eq a b.
Proof.
  destruct a as [[a1 a2] a3], b as [[b1 b2] b3]. unfold key_eq. cbn.
  split; [intro E; injection E; auto | intros (-> & -> & ->); reflexivity].
Qed.

(** The comparisons of [float] through the key of their value. *)
Definition FN (x : float) : Prop := SFnotnan (Prim2SF x).
Definition Fkey (x : float) : Z * Z * Z := SFkey (Prim2SF x).

Lemma Fltb_true (x y : float) :
  (x <? y)%float = true <-> FN x /\ FN y /\ key_lt (Fkey x) (Fkey y).
Proof.
  rewrite ltb_spec. unfold SFltb, FN, Fkey.
  rewrite <- SFcompare_Lt.
  destruct (SFcompare (Prim2SF x) (Prim2SF y)) as [[]|];
    split; intro E; try discriminate E; reflexivity.
Qed.

Lemma Fleb_true (x y : float) :
  (x <=? y)%float = true <->
  FN x /\ FN y /\ (key_lt (Fkey x) (Fkey y) \/ key_eq (Fkey x) (Fkey y)).
Proof.
  rewrite leb_spec. unfold SFleb, FN, Fkey. rewrite <- key_eq_iff. split.
  - destruct (SFcompare (Prim2SF x) (Prim2SF y)) as [[]|] eqn:E;
      intro T; try discriminate T.
    + apply SFcompare_Eq in E. tauto.
    + apply SFcompare_Lt in E. tauto.
  - intros (Nx & Ny & [K | K]).
    + rewrite (proj2 (SFcompare_Lt _ _) (conj Nx (conj Ny K))). reflexivity.
    + rewrite (proj2 (SFcompare_Eq _ _) (conj Nx (conj Ny K))). reflexivity.
Qed.

Lemma Fltb_false (x y : float) :
  FN x -> FN y ->
  ((x <? y)%float = false <->
   key_lt (Fkey y) (Fkey x) \/ key_eq (Fkey x) (Fkey y)).
Proof.
  intros Nx Ny. rewrite ltb_spec. unfold SFltb.
  destruct (SFcompare_notnan _ _ Nx Ny) as [c E]. rewrite E.
  destruct c.
  - apply SFcompare_Eq in E. destruct E as (_ & _ & E).
    apply key_eq_iff in E. fold (Fkey x) (Fkey y) in E. tauto.
  - apply SFcompare_Lt in E. destruct E as (_ & _ & E).
    fold (Fkey x) (Fkey y) in E. split; [discriminate|].
    unfold key_lt, key_eq in *. lia.
  - apply SFcompare_Gt, SFcompare_Lt in E. destruct E as (_ & _ & E).
    fold (Fkey x) (Fkey y) in E. tauto.
Qed.

Lemma is_nan_false (x : float) : is_nan x = false <-> FN x.
Proof.
  unfold is_nan, FN, SFnotnan. rewrite eqb_spec. unfold SFeqb. split.
  - intros E N. rewrite N in E. discriminate E.
  - intro N.
    rewrite (proj2 (SFcompare_Eq _ _) (conj N (conj N eq_refl))).
    reflexivity.
Qed.

(** What the order lemmas below need from a key: its three components. *)
Ltac key_order :=
  unfold key_lt, key_eq in *;
  repeat match goal with
         | H : context [Fkey ?x] |- _ =>
             let a := fresh "k" in let b := fresh "k" in let c := fresh "k" in
             destruct (Fkey x) as [[a b] c]
         | |- context [Fkey ?x] =>
             let a := fresh "k" in let b := fresh "k" in let c := fresh "k" in
             destruct (Fkey x) as [[a b] c]
         end;
  cbn [fst snd] in *; lia.

Lemma Fltb_trans (x y z : float) :
  (x <? y)%float = true -> (y <? z)%float = true -> (x <? z)%float = true.
Proof.
  rewrite !Fltb_true. intros (Nx & Ny & A) (_ & Nz & B).
  repeat split; auto. key_order.
Qed.

Lemma Fleb_trans (x y z : float) :
  (x <=? y)%float = true -> (y <=? z)%float = true -> (x <=? z)%float = true.
Proof.
  rewrite !Fleb_true. intros (Nx & Ny & A) (_ & Nz & B).
  repeat split; auto. key_order.
Qed.

Lemma Fleb_ltb_trans (x y z : float) :
  (x <=? y)%float = true -> (y <? z)%float = true -> (x <? z)%float = true.
Proof.
  rewrite !Fltb_true, !Fleb_true. intros (Nx & Ny & A) (_ & Nz & B).
  repeat split; auto. key_order.
Qed.

Lemma Fltb_leb (x y : float) :
  (x <? y)%float = true -> (x <=? y)%float = true.
Proof. rewrite Fltb_true, Fleb_true. tauto. Qed.

Lemma Fleb_not_ltb (x y : float) :
  (x <=? y)%float = true -> (y <? x)%float = false.
Proof.
  rewrite Fleb_true. intros (Nx & Ny & A).
  destruct (y <? x)%float eqn:E; [|reflexivity].
  apply Fltb_true in E. destruct E as (_ & _ & E). exfalso. key_order.
Qed.

Lemma Fltb_false_leb (x y : float) :
  FN x -> FN y -> (x <? y)%float = false -> (y <=? x)%float = true.
Proof.
  intros Nx Ny E. apply (Fltb_false x y Nx Ny) in E.
  apply Fleb_true. repeat split; auto. key_order.
Qed.

Lemma Fleb_refl (x : float) : FN x -> (x <=? x)%float = true.
Proof. intro N. apply Fleb_true. repeat split; auto. key_order. Qed.

End FloatOrder.
Import FloatOrder.

(** ** Signs through rounding *)

(** [x] is a number of sign bit [s]: not NaN. *)
Definition SFsigned (s : bool) (x : spec_float) : Prop :=
  match x with
  | S754_zero s' | S754_infinity s' | S754_finite s' _ _ => s' = s
  | S754_nan => False
  end.

Lemma iter_pos_invariant {A : Type} (P : A -> Prop) (f : A -> A) :
  (forall x, P x -> P (f x)) -> forall p x, P x -> P (SpecFloat.iter_pos f p x).
Proof. intro Hf. induction p as [p IH|p IH|]; intros x Px; cbn; auto. Qed.

Lemma shr_1_nonneg (mrs : shr_record) :
  0 <= shr_m mrs -> 0 <= shr_m (shr_1 mrs).
Proof.
  destruct mrs as [m r s]. cbn [shr_m shr_1].
  destruct m as [|[p|p|]|[p|p|]]; cbn [shr_m]; lia.
Qed.

Lemma shr_nonneg (mrs : shr_record) (e n : Z) :
  0 <= shr_m mrs -> 0 <= shr_m (fst (shr mrs e n)).
Proof.
  intro N. destruct n; cbn [shr fst]; auto.
  apply iter_pos_invariant; auto using shr_1_nonneg.
Qed.

Lemma shr_record_of_loc_m (m : Z) (l : location) :
  shr_m (shr_record_of_loc m l) = m.
Proof. destruct l as [|[]]; reflexivity. Qed.

Lemma shr_fexp_nonneg (m e : Z) (l : location) :
  0 <= m -> 0 <= shr_m (fst (shr_fexp prec emax m e l)).
Proof.
  intro N. unfold shr_fexp. apply shr_nonneg.
  rewrite shr_record_of_loc_m. exact N.
Qed.

Lemma round_nearest_even_nonneg (m : Z) (l : location) :
  0 <= m -> 0 <= round_nearest_even m l.
Proof.
  intro N. destruct l as [|[]]; cbn [round_nearest_even]; try lia.
  destruct (Z.even m); lia.
Qed.

Lemma binary_round_aux_signed (sx : bool) (mx ex : Z) (lx : location) :
  0 <= mx -> SFsigned sx (binary_round_aux prec emax sx mx ex lx).
Proof.
  intro N. unfold binary_round_aux.
  pose proof (shr_fexp_nonneg mx ex lx N) as A.
  destruct (shr_fexp prec emax mx ex lx) as [mrs' e']. cbn [fst] in A.
  pose proof (shr_fexp_nonneg _ e' loc_Exact
                (round_nearest_even_nonneg _ (loc_of_shr_record mrs') A)) as B.
  destruct (shr_fexp prec emax _ e' loc_Exact) as [mrs'' e''].
  cbn [fst] in B.
  destruct (shr_m mrs'') as [|m|m]; [reflexivity | | lia].
  destruct (e'' <=? emax - prec); reflexivity.
Qed.

Lemma binary_round_signed (sx : bool) (mx : positive) (ex : Z) :
  SFsigned sx (binary_round prec emax sx mx ex).
Proof.
  unfold binary_round. destruct (shl_align mx ex _) as [mz ez].
  apply binary_round_aux_signed. lia.
Qed.

Lemma Z2F_signed (k : Z) : 0 <= k -> SFsigned false (Prim2SF (Z2F k)).
Proof.
  intro N. unfold Z2F. destruct (k <? 0) eqn:E; [lia|].
  rewrite of_uint63_spec.
  pose proof (Uint63.to_Z_bounded (Uint63.of_Z k)) as [B _].
  destruct (Uint63.to_Z (Uint63.of_Z k)) as [|m|m]; [reflexivity | | lia].
  apply binary_round_signed.
Qed.

Lemma CATEGORY_WEIGHT_finite (cat : RiskCategory) :
  exists m e, Prim2SF (CATEGORY_WEIGHT cat) = S754_finite false m e.
Proof. destruct cat; eexists; eexists; reflexivity. Qed.

Lemma SFmul_signed (x : spec_float) (m : positive) (e : Z) :
  SFsigned false x ->
  SFsigned false (SFmul prec emax x (S754_finite false m e)).
Proof.
  destruct x as [s|s| |s mx ex]; cbn [SFsigned SFmul];
    try (intros ->; reflexivity); try tauto.
  intros ->. apply binary_round_aux_signed. lia.
Qed.

Lemma SFsigned_notnan (s : bool) (x : spec_float) :
  SFsigned s x -> SFnotnan x.
Proof. unfold SFnotnan. intros S E. rewrite E in S. exact S. Qed.

Lemma Fsigned_above_m1 (x : float) :
  SFsigned false (Prim2SF x) -> ((-1) <? x)%float = true.
Proof.
  intro S. apply Fltb_true. split; [|split].
  - unfold FN, SFnotnan. discriminate.
  - exact (SFsigned_notnan _ _ S).
  - unfold Fkey, key_lt.
    change (SFkey (Prim2SF (-1)%float)) with (-1, 52, Zneg 4503599627370496).
    destruct (Prim2SF x) as [s|s| |s m e]; cbn [SFsigned] in S;
      try subst s; cbn [SFkey fst snd]; try lia; tauto.
Qed.

(** ** The selection loop shared by [pickCategory] and the dominant
    category *)

Definition entryScore (entry : RiskCategory * Z) : float :=
  (Z2F (snd entry) * CATEGORY_WEIGHT (fst entry))%float.

Definition pickLoop (entries : list (RiskCategory * Z))
    (st : RiskCategory * float) : RiskCategory * float :=
  fold_left (fun st (entry : RiskCategory * Z) =>
               let (cat, count) := entry in pickStep count cat st)
    entries st.

Lemma entryScore_signed (e : RiskCategory * Z) :
  0 <= snd e -> SFsigned false (Prim2SF (entryScore e)).
Proof.
  intro N. unfold entryScore. rewrite mul_spec.
  destruct (CATEGORY_WEIGHT_finite (fst e)) as (m & ex & ->).
  apply SFmul_signed, Z2F_signed, N.
Qed.

Lemma entryScore_FN (e : RiskCategory * Z) : 0 <= snd e -> FN (entryScore e).
Proof. intro N. exact (SFsigned_notnan _ _ (entryScore_signed e N)). Qed.

Lemma pickLoop_cons (e : RiskCategory * Z) entries st :
  pickLoop (e :: entries) st = pickLoop entries (pickStep (snd e) (fst e) st).
Proof. destruct e; reflexivity. Qed.

Lemma pickStep_eq (count : Z) (cat : RiskCategory) st :
  pickStep count cat st =
    if (snd st <? entryScore (cat, count))%float
    then (cat, entryScore (cat, count)) else st.
Proof. reflexivity. Qed.

(** Either nothing beat the initial state, or the loop ends on the first
    entry whose score is the greatest. *)
Lemma pickLoop_first_greatest (entries : list (RiskCategory * Z)) :
  forall st,
    FN (snd st) ->
    (forall e, In e entries -> FN (entryScore e)) ->
    (pickLoop entries st = st /\
     forall e, In e entries -> (entryScore e <=? snd st)%float = true)
    \/
    (exists pre count post,
        entries = pre ++ (fst (pickLoop entries st), count) :: post /\
        snd (pickLoop entries st) =
          entryScore (fst (pickLoop entries st), count) /\
        (snd st <? snd (pickLoop entries st))%float = true /\
        (forall e, In e pre ->
           (entryScore e <? snd (pickLoop entries st))%float = true) /\
        (forall e, In e post ->
           (entryScore e <=? snd (pickLoop entries st))%float = true)).
Proof.
  induction entries as [|[cat count] rest IH]; intros st Nst Nall.
  - left. split; [reflexivity | intros e []].
  - assert (FN (entryScore (cat, count))) as Nc
        by (apply Nall; left; reflexivity).
    assert (forall e, In e rest -> FN (entryScore e)) as Nrest
        by (intros e I; apply Nall; right; exact I).
    rewrite pickLoop_cons. cbn [fst snd]. rewrite pickStep_eq.
    destruct (snd st <? entryScore (cat, count))%float eqn:G.
    + destruct (IH (cat, entryScore (cat, count)) Nc Nrest)
        as [[E L] | (pre & c & post & E & S & B & P & Q)].
      * right. exists [], count, rest. rewrite E. cbn [fst snd app].
        split; [reflexivity|]. split; [reflexivity|]. split; [exact G|].
        split; [intros e [] | exact L].
      * right. exists ((cat, count) :: pre), c, post.
        cbn [fst snd] in *.
        split; [rewrite E at 1; reflexivity|]. split; [exact S|].
        split; [exact (Fltb_trans _ _ _ G B)|]. split; [|exact Q].
        intros e [<- | I]; [exact B | apply P, I].
    + destruct (IH st Nst Nrest)
        as [[E L] | (pre & c & post & E & S & B & P & Q)].
      * left. split; [exact E|].
        intros e [<- | I]; [|apply L, I].
        apply Fltb_false_leb; assumption.
      * right. exists ((cat, count) :: pre), c, post.
        split; [rewrite E at 1; reflexivity|]. split; [exact S|].
        split; [exact B|]. split; [|exact Q].
        intros e [<- | I]; [|apply P, I].
        apply (Fleb_ltb_trans _ (snd st)); [|exact B].
        apply Fltb_false_leb; assumption.
Qed.

(** With a state initialised to [-1] and counts that are not negative,
    the first entry already beats the initial state. *)
Lemma pickLoop_nonempty (e : RiskCategory * Z) entries (b0 : RiskCategory) :
  (forall x, In x (e :: entries) -> 0 <= snd x) ->
  let st := pickLoop (e :: entries) (b0, (-1)%float) in
  exists pre count post,
    e :: entries = pre ++ (fst st, count) :: post /\
    (forall x, In x pre ->
       (entryScore x <? entryScore (fst st, count))%float = true) /\
    (forall x, In x post ->
       (entryScore x <=? entryScore (fst st, count))%float = true).
Proof.
  intros N st.
  destruct (pickLoop_first_greatest (e :: entries) (b0, (-1)%float))
    as [[_ L] | (pre & c & post & E & S & _ & P & Q)].
  - unfold FN, SFnotnan. discriminate.
  - intros x I. apply entryScore_FN, N, I.
  - exfalso. specialize (L e (or_introl eq_refl)). cbn [snd] in L.
    apply Fleb_not_ltb in L.
    rewrite (Fsigned_above_m1 _ (entryScore_signed e (N e (or_introl eq_refl)))) in L.
    discriminate L.
  - exists pre, c, post. fold st in E, S, P, Q. rewrite <- S. auto.
Qed.

(** ** Dominant category *)

Lemma computeDominant_pickLoop (counts : Breakdown Z) :
  computeDominant counts =
    fst (pickLoop (cb_entries counts) (General, (-1)%float)).
Proof. reflexivity. Qed.

(** The dominant category is the first category, in the order
    Geopolitical, Monetary, Commodity, SupplyChain, General, whose score
    [count * baseWeight] is the greatest: the initial [General] never
    survives the first turn of the loop. *)
Lemma computeDominant_first_greatest (counts : Breakdown Z) :
  (forall cat, 0 <= cb_get counts cat) ->
  exists pre count post,
    cb_entries counts = pre ++ (computeDominant counts, count) :: post /\
    (forall e, In e pre ->
       (entryScore e <? entryScore (computeDominant counts, count))%float
       = true) /\
    (forall e, In e post ->
       (entryScore e <=? entryScore (computeDominant counts, count))%float
       = true).
Proof.
  intro N. rewrite computeDominant_pickLoop.
  apply (pickLoop_nonempty (Geopolitical, cbGeopolitical counts)).
  intros x I. cbn [In] in I.
  destruct I as [<- | [<- | [<- | [<- | [<- | []]]]]]; cbn [snd].
  - apply (N Geopolitical).
  - apply (N Monetary).
  - apply (N Commodity).
  - apply (N SupplyChain).
  - apply (N General).
Qed.

(** C1, at the empty batch.  Every count is zero, every score is
    [0 * weight = 0], and [0 > -1] holds: the first category of the
    enumeration replaces the initial [General]. *)
Theorem classifyArticles_empty_dominant `{JsString} :
  dominantCategory (classifyArticles []) = Geopolitical
  /\ countCategories [] = zeroCounts
  /\ pickStep 0 Geopolitical (General, (-1)%float) = (Geopolitical, 0%float).
Proof. repeat split. Qed.

(** Two Monetary articles (1.8) beat one Geopolitical article (1.0); nine
    Geopolitical and ten Monetary articles both score 9 and the first
    category wins.  The scores are binary64 products: [3 * 0.70] is one
    unit in the last place below [7 * 0.30], so three SupplyChain articles
    lose to seven General ones. *)
Example computeDominant_examples :
  computeDominant {| cbGeopolitical := 1; cbMonetary := 2; cbCommodity := 0;
                     cbSupplyChain := 0; cbGeneral := 0 |} = Monetary
  /\ computeDominant {| cbGeopolitical := 9; cbMonetary := 10;
                        cbCommodity := 0; cbSupplyChain := 0;
                        cbGeneral := 1 |} = Geopolitical
  /\ computeDominant {| cbGeopolitical := 0; cbMonetary := 0;
                        cbCommodity := 0; cbSupplyChain := 3;
                        cbGeneral := 7 |} = General.
Proof. repeat split. Qed.

(** ** Category picker *)

(** [matchCount(category) * baseWeight(category)] of an entry of the
    mapping. *)
Definition matchScore (entry : RiskCategory * list string) : float :=
  (Z2F (Z.of_nat (List.length (snd entry))) * CATEGORY_WEIGHT (fst entry))%float.

Definition matchCounts (matches : KeywordMatches) : list (RiskCategory * Z) :=
  map (fun entry : RiskCategory * list string =>
         (fst entry, Z.of_nat (List.length (snd entry)))) matches.

Lemma pickCategory_pickLoop (matches : KeywordMatches) :
  pickCategory matches =
    fst (pickLoop (matchCounts matches) (General, (-1)%float)).
Proof.
  unfold pickCategory, pickLoop, matchCounts.
  generalize (General, (-1)%float).
  induction matches as [|[cat ws] rest IH]; intro st; [reflexivity|].
  cbn [fold_left map fst snd]. apply IH.
Qed.

Lemma matchCounts_split (matches : KeywordMatches) pre cat count post :
  matchCounts matches = pre ++ (cat, count) :: post ->
  exists pre' ws post',
    matches = pre' ++ (cat, ws) :: post' /\
    pre = matchCounts pre' /\ post = matchCounts post' /\
    count = Z.of_nat (List.length ws).
Proof.
  unfold matchCounts. intro E.
  apply map_eq_app in E. destruct E as (pre' & tl & -> & <- & E).
  apply map_eq_cons in E. destruct E as ([c ws] & post' & -> & E & <-).
  cbn [fst snd] in E. injection E as -> <-.
  exists pre', ws, post'. auto.
Qed.

Lemma matchCounts_nonneg (matches : KeywordMatches) x :
  In x (matchCounts matches) -> 0 <= snd x.
Proof.
  unfold matchCounts. intro I. apply in_map_iff in I.
  destruct I as (e & <- & _). cbn [snd]. lia.
Qed.

(** On a mapping that is not empty the picker returns the key of the
    first entry with the greatest score. *)
Lemma pickCategory_selects (e : RiskCategory * list string)
    (rest : KeywordMatches) :
  let matches := e :: rest in
  exists pre ws post,
    matches = pre ++ (pickCategory matches, ws) :: post /\
    (forall x, In x pre ->
       (matchScore x <? matchScore (pickCategory matches, ws))%float
       = true) /\
    (forall x, In x post ->
       (matchScore x <=? matchScore (pickCategory matches, ws))%float
       = true).
Proof.
  intro m. destruct e as [cat ws]. rewrite pickCategory_pickLoop.
  destruct (pickLoop_nonempty (cat, Z.of_nat (List.length ws))
              (matchCounts rest) General) as (pre & c & post & E & P & Q).
  { intros x I. apply (matchCounts_nonneg m x I). }
  change ((cat, Z.of_nat (List.length ws)) :: matchCounts rest)
    with (matchCounts m) in E, P, Q.
  apply matchCounts_split in E.
  destruct E as (pre' & ws' & post' & E & -> & -> & ->).
  exists pre', ws', post'. split; [exact E|]. split.
  - intros x I.
    apply (P (fst x, Z.of_nat (List.length (snd x)))).
    unfold matchCounts. apply in_map_iff. exists x. auto.
  - intros x I.
    apply (Q (fst x, Z.of_nat (List.length (snd x)))).
    unfold matchCounts. apply in_map_iff. exists x. auto.
Qed.

(** C5.  The category picker returns [General] on the empty mapping;
    otherwise it returns the key of an entry of the mapping whose score
    [matchCount * baseWeight] is strictly greater than the score of every
    entry enumerated before it and at least the score of every entry
    enumerated after it: the greatest score wins, the first one on a tie. *)
Theorem pickCategory_first_greatest (matches : KeywordMatches) :
  match matches with
  | [] => pickCategory matches = General
  | _ :: _ =>
      exists pre ws post,
        matches = pre ++ (pickCategory matches, ws) :: post /\
        (forall e, In e pre ->
           (matchScore e <? matchScore (pickCategory matches, ws))%float
           = true) /\
        (forall e, In e post ->
           (matchScore e <=? matchScore (pickCategory matches, ws))%float
           = true)
  end.
Proof.
  destruct matches as [|e rest]; [reflexivity|].
  exact (pickCategory_selects e rest).
Qed.

(** Five Commodity keywords and four Geopolitical ones both score 4: the
    category enumerated first wins.  The scores are binary64 products:
    [7 * 0.80] is one unit in the last place above [8 * 0.70], so seven
    Commodity keywords beat eight SupplyChain ones. *)
Example pickCategory_tie :
  pickCategory [(Commodity, ["oil"; "gold"; "fuel"; "wheat"; "grain"]);
                (Geopolitical, ["war"; "coup"; "nato"; "rebel"])]
  = Commodity
  /\ pickCategory [(Geopolitical, ["war"; "coup"; "nato"; "rebel"]);
                   (Commodity, ["oil"; "gold"; "fuel"; "wheat"; "grain"])]
     = Geopolitical
  /\ pickCategory [(SupplyChain, ["port"; "tariff"; "freight"; "shipping";
                                  "shortage"; "logistics"; "inventory";
                                  "bottleneck"]);
                   (Commodity, ["oil"; "gold"; "fuel"; "wheat"; "grain";
                                "brent"; "opec"])]
     = Commodity.
Proof. repeat split. Qed.

Lemma pickCategory_key (matches : KeywordMatches) :
  matches <> [] -> In (pickCategory matches) (map fst matches).
Proof.
  intro N. destruct matches as [|e rest]; [congruence|].
  destruct (pickCategory_selects e rest) as (pre & ws & post & E & _).
  cbv zeta in E. rewrite E at 2. rewrite map_app. apply in_or_app. right. left. reflexivity.
Qed.

Lemma pickCategory_General `{JsString} (text : string) :
  pickCategory (matchKeywords text) = General <-> matchKeywords text = [].
Proof.
  split.
  - intro E. destruct (matchKeywords text) as [|e rest] eqn:M; [reflexivity|].
    exfalso. apply (matchKeywords_no_General text).
    rewrite M, <- E. apply pickCategory_key. discriminate.
  - intros ->. reflexivity.
Qed.

(** C10.  In every article [classifyArticles] returns, the risk category
    is [General] exactly when the keyword mapping is empty: the picker
    applied to the matcher's mapping returns [General] if and only if
    no category has a keyword match. *)
Theorem riskCategory_General_iff_no_match `{JsString}
    (rawArticles : list RawArticle) :
  Forall (fun a => riskCategory a = General <-> keywordMatches a = [])
    (articles (classifyArticles rawArticles))
  /\ (forall text,
        pickCategory (matchKeywords text) = General <->
        matchKeywords text = []).
Proof.
  split; [|intro text; apply pickCategory_General].
  apply Forall_forall. intros a I. cbn [articles classifyArticles] in I.
  apply in_map_iff in I. destruct I as (r & <- & _).
  cbn [riskCategory keywordMatches classifyArticle].
  apply pickCategory_General.
Qed.

(** ** Impact level *)

(** C6.  A score of at most 30 gives LOW, a score from 31 to 70 gives
    MEDIUM and a score from 71 to 100 gives HIGH; at the band edges: 30 is
    LOW, 31 and 70 are MEDIUM, 71 is HIGH. *)
Theorem toImpactLevel_bands (score : float) :
  ((score <=? 30)%float = true -> toImpactLevel score = LOW)
  /\ ((31 <=? score)%float = true -> (score <=? 70)%float = true ->
      toImpactLevel score = MEDIUM)
  /\ ((71 <=? score)%float = true -> (score <=? 100)%float = true ->
      toImpactLevel score = HIGH)
  /\ toImpactLevel 30 = LOW /\ toImpactLevel 31 = MEDIUM
  /\ toImpactLevel 70 = MEDIUM /\ toImpactLevel 71 = HIGH.
Proof.
  unfold toImpactLevel. split; [intros ->; reflexivity|]. split; [|split].
  - intros L U. rewrite U.
    destruct (score <=? 30)%float eqn:E; [|reflexivity].
    pose proof (Fleb_trans _ _ _ L E) as C. discriminate C.
  - intros L U.
    destruct (score <=? 30)%float eqn:E.
    { pose proof (Fleb_trans _ _ _ L E) as C. discriminate C. }
    destruct (score <=? 70)%float eqn:F; [|reflexivity].
    pose proof (Fleb_trans _ _ _ L F) as C. discriminate C.
  - repeat split.
Qed.

Lemma toImpactLevel_bands_witness :
  toImpactLevel 23 = LOW /\ toImpactLevel 58 = MEDIUM
  /\ toImpactLevel 100 = HIGH.
Proof.
  split; [|split].
  - exact (proj1 (toImpactLevel_bands 23) eq_refl).
  - exact (proj1 (proj2 (toImpactLevel_bands 58)) eq_refl eq_refl).
  - exact (proj1 (proj2 (proj2 (toImpactLevel_bands 100))) eq_refl eq_refl).
Defined.

(** ** Clamping *)

Lemma Math_min_cases (a b : float) :
  FN a -> FN b ->
  (Math_min a b = a \/ Math_min a b = b) /\
  (Math_min a b <=? a)%float = true /\ (Math_min a b <=? b)%float = true.
Proof.
  intros Na Nb. unfold Math_min.
  rewrite (proj2 (is_nan_false a) Na), (proj2 (is_nan_false b) Nb).
  cbn [orb].
  destruct (a <? b)%float eqn:E1.
  { split; [left; reflexivity|]. split; [apply Fleb_refl, Na|].
    apply Fltb_leb, E1. }
  destruct (b <? a)%float eqn:E2.
  { split; [right; reflexivity|]. split; [apply Fltb_leb, E2|].
    apply Fleb_refl, Nb. }
  pose proof (Fltb_false_leb _ _ Na Nb E1) as L1.
  pose proof (Fltb_false_leb _ _ Nb Na E2) as L2.
  destruct (get_sign a).
  - split; [left; reflexivity|]. split; [apply Fleb_refl, Na | exact L2].
  - split; [right; reflexivity|]. split; [exact L1 | apply Fleb_refl, Nb].
Qed.

Lemma Math_max_cases (a b : float) :
  FN a -> FN b ->
  (Math_max a b = a \/ Math_max a b = b) /\
  (a <=? Math_max a b)%float = true /\ (b <=? Math_max a b)%float = true.
Proof.
  intros Na Nb. unfold Math_max.
  rewrite (proj2 (is_nan_false a) Na), (proj2 (is_nan_false b) Nb).
  cbn [orb].
  destruct (a <? b)%float eqn:E1.
  { split; [right; reflexivity|]. split; [apply Fltb_leb, E1|].
    apply Fleb_refl, Nb. }
  destruct (b <? a)%float eqn:E2.
  { split; [left; reflexivity|]. split; [apply Fleb_refl, Na|].
    apply Fltb_leb, E2. }
  pose proof (Fltb_false_leb _ _ Na Nb E1) as L1.
  pose proof (Fltb_false_leb _ _ Nb Na E2) as L2.
  destruct (get_sign a).
  - split; [right; reflexivity|]. split; [exact L2 | apply Fleb_refl, Nb].
  - split; [left; reflexivity|]. split; [apply Fleb_refl, Na | exact L1].
Qed.

(** A number that is not NaN is clamped into [[0, 100]]. *)
Lemma clamp_range (value : float) :
  FN value ->
  (0 <=? clamp value 0 100)%float = true /\
  (clamp value 0 100 <=? 100)%float = true.
Proof.
  intro N. unfold clamp.
  assert (FN 100%float) as N100 by (unfold FN, SFnotnan; discriminate).
  assert (FN 0%float) as N0 by (unfold FN, SFnotnan; discriminate).
  destruct (Math_min_cases 100 value N100 N) as (C & L1 & L2).
  assert (FN (Math_min 100 value)) as Nm by (destruct C as [-> | ->]; assumption).
  destruct (Math_max_cases 0 (Math_min 100 value) N0 Nm) as (D & M1 & M2).
  split; [exact M1|].
  destruct D as [-> | ->]; [reflexivity | exact L1].
Qed.

(** NaN goes through [clamp] unchanged. *)
Example clamp_nan : is_nan (clamp nan 0 100) = true.
Proof. reflexivity. Qed.

(** ** Article scorer *)

(** [Math.round] rounds half up: on a number [+-m * 2^e] with a
    fractional part ([e < 0]) the integer [k] it computes satisfies
    [k <= +-m * 2^e + 1/2 < k + 1], here multiplied by [2^(1-e)]. *)
Lemma roundHalfUp_spec (s : bool) (m : positive) (e : Z) :
  e < 0 ->
  let k := roundHalfUp s m e in
  let x2 := 2 * cond_Zopp s (Zpos m) in
  k * 2 ^ (1 - e) <= x2 + 2 ^ (- e) < (k + 1) * 2 ^ (1 - e).
Proof.
  intros N k x2. unfold k, roundHalfUp. fold x2.
  rewrite Z.shiftr_div_pow2 by lia.
  assert (0 < 2 ^ (1 - e)) as P by (apply Z.pow_pos_nonneg; lia).
  pose proof (Z.mul_div_le (x2 + 2 ^ (- e)) _ P).
  pose proof (Z.mul_succ_div_gt (x2 + 2 ^ (- e)) _ P).
  lia.
Qed.

Lemma severityBoost_values `{JsString} (text : string) :
  severityBoost text = 40%float \/ severityBoost text = 25%float \/
  severityBoost text = 12%float \/ severityBoost text = 5%float.
Proof.
  pose proof (scanTiers_values SEVERITY_TIERS (lc text)) as I.
  change (In (severityBoost text) [40; 25; 12; 5]%float) in I.
  destruct I as [E | [E | [E | [E | []]]]]; symmetry in E; auto.
Qed.

(** The twenty scores an article can get: the weights times 60 are the
    integers 60, 54, 48, 42 and 18 exactly, and the sums with a boost
    stay integers, capped at 100. *)
Lemma scoreArticle_table `{JsString} (category : RiskCategory) (text : string) :
  scoreArticle category text =
    Math_min 100
      ((match category with
        | Geopolitical => 60 | Monetary => 54 | Commodity => 48
        | SupplyChain => 42 | General => 18
        end) + severityBoost text)%float.
Proof.
  unfold scoreArticle.
  destruct (severityBoost_values text) as [-> | [-> | [-> | ->]]];
    destruct category; reflexivity.
Qed.

Lemma scoreArticle_range `{JsString} (category : RiskCategory) (text : string) :
  (0 <=? scoreArticle category text)%float = true /\
  (scoreArticle category text <=? 100)%float = true.
Proof.
  unfold scoreArticle.
  destruct (severityBoost_values text) as [-> | [-> | [-> | ->]]];
    destruct category; split; reflexivity.
Qed.

(** The text has no keyword of any category dictionary. *)
Definition noCategoryKeyword `{JsString} (text : string) : Prop :=
  forall cat ws w,
    In (cat, ws) KEYWORDS -> In w ws -> includes (lc text) w = false.

(** The text has no keyword of any severity tier. *)
Definition noSeverityKeyword `{JsString} (text : string) : Prop :=
  forall tier w,
    In tier SEVERITY_TIERS -> In w (words tier) ->
    includes (lc text) w = false.

Definition noneIncluded (lower : string) (lists : list (list string)) : bool :=
  forallb (forallb (fun w => negb (includes lower w))) lists.

Lemma noneIncluded_spec (lower : string) (lists : list (list string)) :
  noneIncluded lower lists = true <->
  forall ws w, In ws lists -> In w ws -> includes lower w = false.
Proof.
  unfold noneIncluded. rewrite forallb_forall. split.
  - intros A ws w I J. specialize (A ws I). rewrite forallb_forall in A.
    apply negb_true_iff, A, J.
  - intros A ws I. apply forallb_forall. intros w J.
    apply negb_true_iff, (A ws w I J).
Qed.

Lemma noCategoryKeyword_check `{JsString} (text : string) :
  noneIncluded (lc text) (map snd KEYWORDS) = true <->
  noCategoryKeyword text.
Proof.
  rewrite noneIncluded_spec. unfold noCategoryKeyword. split.
  - intros A cat ws w I J. apply (A ws w); [|exact J].
    apply in_map_iff. exists (cat, ws). auto.
  - intros A ws w I J. apply in_map_iff in I.
    destruct I as ([cat ws'] & <- & I). apply (A cat ws' w I J).
Qed.

Lemma noSeverityKeyword_check `{JsString} (text : string) :
  noneIncluded (lc text) (map words SEVERITY_TIERS) = true <->
  noSeverityKeyword text.
Proof.
  rewrite noneIncluded_spec. unfold noSeverityKeyword. split.
  - intros A tier w I J. apply (A (words tier) w); [|exact J].
    apply in_map_iff. exists tier. auto.
  - intros A ws w I J. apply in_map_iff in I.
    destruct I as (tier & <- & I). apply (A tier w I J).
Qed.

Lemma filter_none {A : Type} (f : A -> bool) (l : list A) :
  (forall x, In x l -> f x = false) -> filter f l = [].
Proof.
  induction l as [|x l IH]; intro N; [reflexivity|].
  cbn [filter]. rewrite (N x (or_introl eq_refl)).
  apply IH. intros y I. apply N. right. exact I.
Qed.

Lemma flat_map_none {A B : Type} (g : A -> list B) (l : list A) :
  (forall x, In x l -> g x = []) -> flat_map g l = [].
Proof.
  induction l as [|x l IH]; intro N; [reflexivity|].
  cbn [flat_map]. rewrite (N x (or_introl eq_refl)).
  apply IH. intros y I. apply N. right. exact I.
Qed.

Lemma noCategoryKeyword_matchKeywords `{JsString} (text : string) :
  noCategoryKeyword text -> matchKeywords text = [].
Proof.
  intro N. rewrite matchKeywords_flat_map. apply flat_map_none.
  intros [cat ws] I. unfold selectMatches. cbn [fst snd].
  rewrite filter_none; [reflexivity|]. intros w J. exact (N cat ws w I J).
Qed.

Lemma scanTiers_none (tiers : list SeverityTier) (lower : string) :
  (forall tier w, In tier tiers -> In w (words tier) ->
                  includes lower w = false) ->
  scanTiers tiers lower = BASELINE_BOOST.
Proof.
  induction tiers as [|tier rest IH]; intro N; [reflexivity|].
  cbn [scanTiers].
  destruct (existsb (fun w => includes lower w) (words tier)) eqn:E.
  - apply existsb_exists in E. destruct E as (w & I & E).
    rewrite (N tier w (or_introl eq_refl) I) in E. discriminate E.
  - apply IH. intros t w I J. apply (N t w); [right; exact I | exact J].
Qed.

Lemma Math_round_half_up (x : float) (s : bool) (m : positive) (e : Z) :
  Prim2SF x = S754_finite s m e -> e < 0 ->
  exists k,
    k * 2 ^ (1 - e) <= 2 * cond_Zopp s (Zpos m) + 2 ^ (- e)
      < (k + 1) * 2 ^ (1 - e) /\
    Math_round x =
      if k =? 0 then (if s then (-0)%float else 0%float) else Z2F k.
Proof.
  intros E N. exists (roundHalfUp s m e). split.
  - exact (roundHalfUp_spec s m e N).
  - unfold Math_round. rewrite E.
    destruct (0 <=? e) eqn:C; [lia | reflexivity].
Qed.

(** C3, as the code has it.  The score of every article is
    [clamp(round(baseWeight(category) * 60 + severityBoost(text)), 0, 100)]
    with [Math.round] rounding a half up; and an article whose text has
    no keyword of any category and no keyword of any severity tier is
    [General], gets the baseline boost 5 and the score 23. *)
Theorem articleScore_formula `{JsString} (a : RawArticle) :
  let c := classifyArticle a in
  let text := articleText a in
  articleScore c =
    clamp (Math_round (CATEGORY_WEIGHT (riskCategory c) * 60
                       + severityBoost text)%float) 0 100
  /\ (forall x s m e,
        Prim2SF x = S754_finite s m e -> e < 0 ->
        exists k,
          k * 2 ^ (1 - e) <= 2 * cond_Zopp s (Zpos m) + 2 ^ (- e)
            < (k + 1) * 2 ^ (1 - e) /\
          Math_round x =
            if k =? 0 then (if s then (-0)%float else 0%float) else Z2F k)
  /\ (noCategoryKeyword text -> noSeverityKeyword text ->
      riskCategory c = General /\ severityBoost text = 5%float /\
      articleScore c = 23%float).
Proof.
  intros c text. split; [reflexivity|]. split; [exact Math_round_half_up|].
  intros NC NS.
  assert (riskCategory c = General) as G.
  { unfold c. cbn [riskCategory classifyArticle]. fold text.
    rewrite (noCategoryKeyword_matchKeywords text NC). reflexivity. }
  assert (severityBoost text = 5%float) as B
      by exact (scanTiers_none SEVERITY_TIERS (lc text) NS).
  split; [exact G|]. split; [exact B|].
  unfold c in *. cbn [articleScore riskCategory classifyArticle] in *.
  fold text in G |- *. rewrite G. unfold scoreArticle. rewrite B.
  vm_compute. reflexivity.
Qed.

Definition quietArticle : RawArticle :=
  {| raw_title := "Hello world";
     raw_description := None;
     raw_source := SourceObject (Some "Wire");
     raw_url := "https://example.org/hello";
     raw_publishedAt := "2024-05-01T08:00:00Z" |}.

Lemma articleScore_formula_witness :
  riskCategory (classifyArticle quietArticle) = General /\
  severityBoost (articleText quietArticle) = 5%float /\
  articleScore (classifyArticle quietArticle) = 23%float.
Proof.
  apply (proj2 (proj2 (articleScore_formula quietArticle))).
  - apply noCategoryKeyword_check. vm_compute. reflexivity.
  - apply noSeverityKeyword_check. vm_compute. reflexivity.
Defined.

(** C3 as stated fails: "Market crash" has no keyword of any category,
    so it is [General], yet "crash" is a tier-1 severity keyword: the
    boost is 40 and the score 58, not 5 and 23. *)
Definition crashArticle : RawArticle :=
  {| raw_title := "Market crash";
     raw_description := None;
     raw_source := SourceObject (Some "Wire");
     raw_url := "https://example.org/crash";
     raw_publishedAt := "2024-05-01T09:00:00Z" |}.

Lemma articleScore_no_category_keyword_counterexample :
  noCategoryKeyword (articleText crashArticle)
  /\ keywordMatches (classifyArticle crashArticle) = []
  /\ riskCategory (classifyArticle crashArticle) = General
  /\ severityBoost (articleText crashArticle) = 40%float
  /\ articleScore (classifyArticle crashArticle) = 58%float
  /\ articleScore (classifyArticle crashArticle) <> 23%float.
Proof.
  split; [apply noCategoryKeyword_check; vm_compute; reflexivity|].
  repeat (split; [vm_compute; reflexivity|]).
  intro E. apply (f_equal (fun x => (x <=? 23)%float)) in E.
  vm_compute in E. discriminate E.
Qed.

(** ** Rounding to binary64

    What [binary_round_aux], the rounding every operation of [SpecFloat]
    ends with, does to a mantissa of 53 bits or more that is far from the
    overflow and underflow thresholds: the result is finite, has a full
    mantissa, and is within [2^-50] of the exact value.  Values are
    rational numbers. *)

Module Rounding.

(** *** Digits *)

Lemma digits2_pos_bounds (p : positive) :
  2 ^ (Zpos (digits2_pos p) - 1) <= Zpos p < 2 ^ Zpos (digits2_pos p).
Proof.
  induction p as [p IH|p IH|]; cbn [digits2_pos];
    rewrite ?Pos2Z.inj_succ.
  - replace (Z.succ (Zpos (digits2_pos p)) - 1) with (Zpos (digits2_pos p)) by lia.
    rewrite Z.pow_succ_r by lia.
    assert (2 ^ Zpos (digits2_pos p) = 2 * 2 ^ (Zpos (digits2_pos p) - 1)) as E
        by (rewrite <- Z.pow_succ_r by lia; f_equal; lia).
    lia.
  - replace (Z.succ (Zpos (digits2_pos p)) - 1) with (Zpos (digits2_pos p)) by lia.
    rewrite Z.pow_succ_r by lia.
    assert (2 ^ Zpos (digits2_pos p) = 2 * 2 ^ (Zpos (digits2_pos p) - 1)) as E
        by (rewrite <- Z.pow_succ_r by lia; f_equal; lia).
    lia.
  - cbn. lia.
Qed.

Lemma Zdigits2_bounds (m : Z) :
  0 < m -> 2 ^ (Zdigits2 m - 1) <= m < 2 ^ Zdigits2 m.
Proof.
  destruct m as [|p|p]; try lia. intros _. cbn [Zdigits2].
  apply digits2_pos_bounds.
Qed.

Lemma Zdigits2_pos (m : Z) : 0 < m -> 0 < Zdigits2 m.
Proof. destruct m; cbn [Zdigits2]; lia. Qed.

Lemma Zdigits2_unique (m d : Z) :
  0 < m -> 2 ^ (d - 1) <= m < 2 ^ d -> Zdigits2 m = d.
Proof.
  intros P [L U]. pose proof (Zdigits2_bounds m P) as [L' U'].
  destruct (Z.lt_trichotomy (Zdigits2 m) d) as [C | [C | C]]; [|exact C|].
  - pose proof (Z.pow_le_mono_r 2 (Zdigits2 m) (d - 1)). lia.
  - pose proof (Z.pow_le_mono_r 2 d (Zdigits2 m - 1)). lia.
Qed.

(** *** Right shifts *)

Lemma shr_1_m (mrs : shr_record) :
  0 <= shr_m mrs -> shr_m (shr_1 mrs) = shr_m mrs / 2.
Proof.
  destruct mrs as [m r s]. cbn [shr_m shr_1]. intro N.
  destruct m as [|[p|p|]|p]; cbn [shr_m]; try lia; try reflexivity.
  - apply (Z.div_unique _ 2 _ 1); lia.
  - apply (Z.div_unique _ 2 _ 0); lia.
Qed.

Lemma pow2_xI (p : positive) :
  2 ^ Zpos p~1 = 2 * (2 ^ Zpos p * 2 ^ Zpos p).
Proof.
  replace (Zpos p~1) with (1 + (Zpos p + Zpos p)) by lia.
  rewrite !Z.pow_add_r by lia. reflexivity.
Qed.

Lemma pow2_xO (p : positive) : 2 ^ Zpos p~0 = 2 ^ Zpos p * 2 ^ Zpos p.
Proof.
  replace (Zpos p~0) with (Zpos p + Zpos p) by lia.
  rewrite !Z.pow_add_r by lia. reflexivity.
Qed.

Lemma iter_shr_1_m (p : positive) :
  forall mrs, 0 <= shr_m mrs ->
    0 <= shr_m (SpecFloat.iter_pos shr_1 p mrs) /\
    shr_m (SpecFloat.iter_pos shr_1 p mrs) = shr_m mrs / 2 ^ Zpos p.
Proof.
  induction p as [p IH|p IH|]; intros mrs N; cbn [SpecFloat.iter_pos].
  - pose proof (shr_1_nonneg mrs N) as N1.
    destruct (IH (shr_1 mrs) N1) as [N2 E2].
    destruct (IH _ N2) as [N3 E3].
    split; [exact N3|]. rewrite E3, E2, shr_1_m by exact N.
    assert (0 < 2 ^ Zpos p) by (apply Z.pow_pos_nonneg; lia).
    rewrite !Z.div_div by lia. rewrite pow2_xI. reflexivity.
  - destruct (IH mrs N) as [N2 E2].
    destruct (IH _ N2) as [N3 E3].
    split; [exact N3|]. rewrite E3, E2.
    assert (0 < 2 ^ Zpos p) by (apply Z.pow_pos_nonneg; lia).
    rewrite !Z.div_div by lia. rewrite pow2_xO. reflexivity.
  - split; [apply shr_1_nonneg, N|]. rewrite shr_1_m by exact N. reflexivity.
Qed.

Lemma shr_m_spec (mrs : shr_record) (e n : Z) :
  0 <= shr_m mrs ->
  shr_m (fst (shr mrs e n)) = shr_m mrs / 2 ^ Z.max 0 n /\
  snd (shr mrs e n) = e + Z.max 0 n.
Proof.
  intro N. destruct n as [|p|p]; cbn [shr fst snd].
  - rewrite Z.div_1_r. split; [reflexivity | cbn; lia].
  - rewrite Z.max_r by lia. split; [apply iter_shr_1_m, N | reflexivity].
  - rewrite Z.max_l by lia. rewrite Z.div_1_r. split; [reflexivity | lia].
Qed.

Lemma shr_fexp_spec (m e : Z) (l : location) :
  0 <= m ->
  let n := Z.max 0 (fexp prec emax (Zdigits2 m + e) - e) in
  shr_m (fst (shr_fexp prec emax m e l)) = m / 2 ^ n /\
  snd (shr_fexp prec emax m e l) = e + n.
Proof.
  intros N n. unfold shr_fexp.
  pose proof (shr_m_spec (shr_record_of_loc m l) e
                (fexp prec emax (Zdigits2 m + e) - e)) as S.
  rewrite shr_record_of_loc_m in S. apply S, N.
Qed.

(** *** Values *)

Definition bpow (e : Z) : Q := (2 ^ e)%Q.

Lemma bpow_pos (e : Z) : (0 < bpow e)%Q.
Proof. apply Qpower_0_lt. reflexivity. Qed.

Lemma bpow_add (a b : Z) : (bpow (a + b) == bpow a * bpow b)%Q.
Proof. apply Qpower_plus. discriminate. Qed.

Lemma bpow_le (a b : Z) : a <= b -> (bpow a <= bpow b)%Q.
Proof. intro L. apply Qpower_le_compat_l; [exact L | discriminate]. Qed.

Lemma bpow_Z (n : Z) : 0 <= n -> (bpow n == inject_Z (2 ^ n))%Q.
Proof. intro N. unfold bpow. rewrite Zpower_Qpower by exact N. reflexivity. Qed.

Lemma bpow_succ (e : Z) : (bpow (e + 1) == 2 * bpow e)%Q.
Proof. rewrite bpow_add. change (bpow 1) with 2%Q. ring. Qed.

(** The value of a positive finite number. *)
Definition SF2Q (x : spec_float) : Q :=
  match x with
  | S754_finite false m e => (inject_Z (Zpos m) * bpow e)%Q
  | _ => 0%Q
  end.

Lemma div_pow2_bounds (m n e : Z) :
  0 <= n ->
  (inject_Z (m / 2 ^ n) * bpow (e + n) <= inject_Z m * bpow e /\
   inject_Z m * bpow e < (inject_Z (m / 2 ^ n) + 1) * bpow (e + n))%Q.
Proof.
  intro N.
  assert (0 < 2 ^ n) as P by (apply Z.pow_pos_nonneg; lia).
  pose proof (Z.mul_div_le m _ P) as L.
  pose proof (Z.mul_succ_div_gt m _ P) as U.
  rewrite Zle_Qle, inject_Z_mult in L.
  rewrite Zlt_Qlt, inject_Z_mult in U.
  unfold Z.succ in U. rewrite inject_Z_plus in U.
  change (inject_Z 1) with 1%Q in U.
  rewrite bpow_add, (bpow_Z n N).
  pose proof (bpow_pos e) as Pe.
  set (a := inject_Z (m / 2 ^ n)) in *.
  set (b := inject_Z (2 ^ n)) in *.
  set (c := inject_Z m) in *.
  set (p := bpow e) in *.
  split; nra.
Qed.

Lemma round_nearest_even_bounds (m : Z) (l : location) :
  m <= round_nearest_even m l <= m + 1.
Proof.
  destruct l as [|[]]; cbn [round_nearest_even]; try lia.
  destruct (Z.even m); lia.
Qed.

Lemma fexp_normal (e : Z) :
  -1021 <= e -> fexp prec emax e = e - 53.
Proof. intro N. unfold fexp, SpecFloat.emin, prec, emax. lia. Qed.

Lemma Zdigits2_ge (m k : Z) : 0 <= k -> 2 ^ k <= m -> k < Zdigits2 m.
Proof.
  intros K L.
  assert (0 < m) as P by (pose proof (Z.pow_pos_nonneg 2 k); lia).
  pose proof (Zdigits2_bounds m P) as [_ U].
  destruct (Z.lt_ge_cases k (Zdigits2 m)) as [C | C]; [exact C|].
  pose proof (Z.pow_le_mono_r 2 (Zdigits2 m) k). lia.
Qed.

(** The relative error allowed below: [2^-50]. *)
Definition delta : Q := 1 # 1125899906842624.

Lemma pow2_split (a b : Z) : 0 <= a -> 0 <= b -> 2 ^ (a + b) = 2 ^ a * 2 ^ b.
Proof. intros. apply Z.pow_add_r; assumption. Qed.

(** Rounding a mantissa of at least 53 bits, away from the overflow and
    underflow thresholds: the result is finite and within [2^-50] of
    every number [y] of [[mx, mx + 1) * 2^ex]. *)
Lemma binary_round_aux_bounds (s : bool) (mx ex : Z) (lx : location) (y : Q) :
  2 ^ 52 <= mx ->
  -1000 <= Zdigits2 mx + ex <= 1000 ->
  (inject_Z mx * bpow ex <= y < (inject_Z mx + 1) * bpow ex)%Q ->
  exists m e,
    binary_round_aux prec emax s mx ex lx = S754_finite s m e /\
    2 ^ 52 <= Zpos m < 2 ^ 53 /\
    (y * (1 - delta) <= inject_Z (Zpos m) * bpow e <= y * (1 + delta))%Q.
Proof.
  intros Hm HE [Hy1 Hy2].
  assert (0 < 2 ^ 52) as P52 by reflexivity.
  assert (0 < mx) as Pm by lia.
  pose proof (Zdigits2_ge mx 52 ltac:(lia) Hm) as Hd.
  pose proof (Zdigits2_bounds mx Pm) as [Dl Du].
  set (d := Zdigits2 mx) in *.
  unfold binary_round_aux.
  pose proof (shr_fexp_spec mx ex lx ltac:(lia)) as [S1m S1e].
  cbv zeta in S1m, S1e. fold d in S1m, S1e.
  rewrite fexp_normal in S1m, S1e by lia.
  replace (Z.max 0 (d + ex - 53 - ex)) with (d - 53) in S1m, S1e by lia.
  destruct (shr_fexp prec emax mx ex lx) as [mrs1 e1]. cbn [fst snd] in S1m, S1e.
  set (m1 := shr_m mrs1) in *.
  assert (0 < 2 ^ (d - 53)) as Pn by (apply Z.pow_pos_nonneg; lia).
  assert (2 ^ d = 2 ^ 53 * 2 ^ (d - 53)) as Ed
      by (rewrite <- pow2_split by lia; f_equal; lia).
  assert (2 ^ (d - 1) = 2 ^ 52 * 2 ^ (d - 53)) as Ed1
      by (rewrite <- pow2_split by lia; f_equal; lia).
  assert (2 ^ 52 <= m1 < 2 ^ 53) as Hm1.
  { rewrite S1m. split.
    - apply Z.div_le_lower_bound; lia.
    - apply Z.div_lt_upper_bound; lia. }
  pose proof (round_nearest_even_bounds m1 (loc_of_shr_record mrs1)) as Hm2.
  set (m2 := round_nearest_even m1 (loc_of_shr_record mrs1)) in *.
  pose proof (shr_fexp_spec m2 e1 loc_Exact ltac:(lia)) as [S2m S2e].
  cbv zeta in S2m, S2e.
  pose proof (div_pow2_bounds mx (d - 53) ex ltac:(lia)) as [F1 F1'].
  rewrite <- S1m in F1, F1'. replace (ex + (d - 53)) with e1 in F1, F1' by lia.
  pose proof (bpow_le ex e1 ltac:(lia)) as Pe.
  pose proof (bpow_pos e1) as Pp1. pose proof (bpow_pos ex) as Pp.
  assert (inject_Z (2 ^ 52) * bpow e1 <= inject_Z m1 * bpow e1)%Q as G1.
  { apply Qmult_le_compat_r; [|apply Qlt_le_weak, Pp1].
    rewrite <- Zle_Qle. lia. }
  assert (inject_Z m1 <= inject_Z m2 <= inject_Z m1 + 1)%Q as G2.
  { change 1%Q with (inject_Z 1). rewrite <- inject_Z_plus, <- !Zle_Qle. lia. }
  change (inject_Z (2 ^ 52)) with (4503599627370496 # 1)%Q in G1.
  assert ((Zdigits2 m2 = 53 /\ m2 < 2 ^ 53) \/
          (Zdigits2 m2 = 54 /\ m2 = 2 ^ 53)) as [[D2 C2] | [D2 E2]].
  { destruct (Z.lt_ge_cases m2 (2 ^ 53)) as [C | C].
    - left. split; [|exact C].
      apply Zdigits2_unique; [lia|]. change (53 - 1) with 52. lia.
    - right. assert (m2 = 2 ^ 53) as E by lia. split; [|exact E].
      rewrite E. reflexivity. }
  - rewrite D2 in S2m, S2e. rewrite fexp_normal in S2m, S2e by lia.
    replace (Z.max 0 (53 + e1 - 53 - e1)) with 0 in S2m, S2e by lia.
    rewrite Z.div_1_r in S2m. rewrite Z.add_0_r in S2e.
    destruct (shr_fexp prec emax m2 e1 loc_Exact) as [mrs3 e3].
    cbn [fst snd] in S2m, S2e. rewrite S2m, S2e.
    destruct m2 as [|p2|p2]; try lia.
    assert ((e1 <=? emax - prec) = true) as -> by (apply Z.leb_le; unfold emax, prec; lia).
    exists p2, e1. split; [reflexivity|]. split; [lia|].
    unfold delta. set (v := (inject_Z (Z.pos p2) * bpow e1)%Q) in *.
    set (a1 := (inject_Z m1 * bpow e1)%Q) in *.
    set (ax := (inject_Z mx * bpow ex)%Q) in *.
    assert (a1 <= v <= a1 + bpow e1)%Q as G3 by (unfold v, a1; nra).
    assert (ax < a1 + bpow e1)%Q as G4 by (unfold a1; nra).
    assert (y < ax + bpow ex)%Q as G5 by (unfold ax; nra).
    split; nra.
  - rewrite D2 in S2m, S2e. rewrite fexp_normal in S2m, S2e by lia.
    replace (Z.max 0 (54 + e1 - 53 - e1)) with 1 in S2m, S2e by lia.
    replace (m2 / 2 ^ 1) with (2 ^ 52) in S2m by (rewrite E2; reflexivity).
    destruct (shr_fexp prec emax m2 e1 loc_Exact) as [mrs3 e3].
    cbn [fst snd] in S2m, S2e. rewrite S2m, S2e.
    change (2 ^ 52) with (Zpos 4503599627370496).
    assert ((e1 + 1 <=? emax - prec) = true) as -> by (apply Z.leb_le; unfold emax, prec; lia).
    exists 4503599627370496%positive, (e1 + 1). split; [reflexivity|].
    split; [split; [reflexivity | reflexivity]|].
    pose proof (bpow_succ e1) as Ps.
    unfold delta. 
    assert (inject_Z m2 = (9007199254740992 # 1)%Q) as E2' by (rewrite E2; reflexivity).
    rewrite E2' in G2.
    change (inject_Z (Z.pos 4503599627370496)) with (4503599627370496 # 1)%Q.
    set (a1 := (inject_Z m1 * bpow e1)%Q) in *.
    set (ax := (inject_Z mx * bpow ex)%Q) in *.
    assert (9007199254740992 * bpow e1 <= a1 + bpow e1)%Q as G3 by (unfold a1; nra).
    assert (a1 <= 9007199254740992 * bpow e1)%Q as G3' by (unfold a1; nra).
    assert (ax < a1 + bpow e1)%Q as G4 by (unfold a1; nra).
    assert (y < ax + bpow ex)%Q as G5 by (unfold ax; nra).
    split; nra.
Qed.

Lemma bpow_lt_inv (a b : Z) : (bpow a < bpow b)%Q -> a < b.
Proof. intro L. apply (Qpower_lt_compat_l_inv 2); [exact L | reflexivity]. Qed.

Lemma bpow_le_inv (a b : Z) : (bpow a <= bpow b)%Q -> a <= b.
Proof. intro L. apply (Qpower_le_compat_l_inv 2); [exact L | reflexivity]. Qed.

(** The magnitude of [m * 2^e] from its digits. *)
Lemma magnitude_bounds (m e : Z) :
  0 < m ->
  (bpow (Zdigits2 m - 1 + e) <= inject_Z m * bpow e /\
   inject_Z m * bpow e < bpow (Zdigits2 m + e))%Q.
Proof.
  intro P. pose proof (Zdigits2_bounds m P) as [L U].
  pose proof (Zdigits2_pos m P) as D.
  rewrite Zle_Qle in L. rewrite Zlt_Qlt in U.
  rewrite <- bpow_Z in L, U by lia.
  rewrite !bpow_add. pose proof (bpow_pos e).
  split; nra.
Qed.

Lemma binary_round_aux_value (s : bool) (mx ex : Z) (lx : location) (y : Q) :
  2 ^ 52 <= mx ->
  (inject_Z mx * bpow ex <= y < (inject_Z mx + 1) * bpow ex)%Q ->
  (bpow (-990) <= y <= bpow 990)%Q ->
  exists m e,
    binary_round_aux prec emax s mx ex lx = S754_finite s m e /\
    2 ^ 52 <= Zpos m < 2 ^ 53 /\
    (y * (1 - delta) <= inject_Z (Zpos m) * bpow e <= y * (1 + delta))%Q.
Proof.
  intros Hm Hy [Rl Ru]. apply binary_round_aux_bounds; [exact Hm | | exact Hy].
  assert (0 < mx) as P by (assert (0 < 2 ^ 52) by reflexivity; lia).
  pose proof (magnitude_bounds mx ex P) as [Ml Mu].
  pose proof (Zdigits2_bounds mx P) as [_ U].
  pose proof (Zdigits2_pos mx P) as D.
  assert (inject_Z mx + 1 <= inject_Z (2 ^ Zdigits2 mx))%Q as U'.
  { change 1%Q with (inject_Z 1). rewrite <- inject_Z_plus, <- Zle_Qle. lia. }
  rewrite <- bpow_Z in U' by lia.
  assert (y < bpow (Zdigits2 mx + ex))%Q as Yu.
  { rewrite bpow_add. pose proof (bpow_pos ex). nra. }
  assert (bpow (Zdigits2 mx - 1 + ex) <= y)%Q as Yl by lra.
  split.
  - assert (bpow (-990) < bpow (Zdigits2 mx + ex))%Q as C by lra.
    apply bpow_lt_inv in C. lia.
  - assert (bpow (Zdigits2 mx - 1 + ex) <= bpow 990)%Q as C by lra.
    apply bpow_le_inv in C. lia.
Qed.

(** *** Left shifts and [binary_round] *)

Lemma Pos_iter_xO (d m : positive) :
  Zpos (Pos.iter xO m d) = Zpos m * 2 ^ Zpos d.
Proof.
  induction d as [|d IH] using Pos.peano_ind.
  - cbn [Pos.iter]. rewrite Pos2Z.inj_xO. change (2 ^ 1) with 2. lia.
  - rewrite Pos.iter_succ, Pos2Z.inj_xO, IH, Pos2Z.inj_succ.
    rewrite Z.pow_succ_r by lia. lia.
Qed.

Lemma shl_align_spec (mx : positive) (ex ex' : Z) :
  let n := Z.max 0 (ex - ex') in
  Zpos (fst (shl_align mx ex ex')) = Zpos mx * 2 ^ n /\
  snd (shl_align mx ex ex') = ex - n.
Proof.
  intro n. unfold shl_align, n.
  destruct (ex' - ex) as [|d|d] eqn:E; cbn [fst snd].
  - replace (Z.max 0 (ex - ex')) with 0 by lia. cbn. lia.
  - replace (Z.max 0 (ex - ex')) with 0 by lia. cbn. lia.
  - replace (Z.max 0 (ex - ex')) with (Zpos d) by lia.
    rewrite Pos_iter_xO. lia.
Qed.

Lemma shl_align_value (mx : positive) (ex ex' : Z) :
  (inject_Z (Zpos (fst (shl_align mx ex ex'))) *
     bpow (snd (shl_align mx ex ex')) == inject_Z (Zpos mx) * bpow ex)%Q.
Proof.
  destruct (shl_align_spec mx ex ex') as [-> ->].
  set (n := Z.max 0 (ex - ex')).
  rewrite inject_Z_mult, <- bpow_Z by lia.
  replace ex with ((ex - n) + n) at 2 by lia.
  rewrite (bpow_add (ex - n) n). ring.
Qed.

(** Rounding a positive number [y = m * 2^e] away from the thresholds. *)
Lemma binary_round_value (s : bool) (m : positive) (e : Z) :
  let y := (inject_Z (Zpos m) * bpow e)%Q in
  (bpow (-990) <= y <= bpow 990)%Q ->
  exists m' e',
    binary_round prec emax s m e = S754_finite s m' e' /\
    2 ^ 52 <= Zpos m' < 2 ^ 53 /\
    (y * (1 - delta) <= inject_Z (Zpos m') * bpow e' <= y * (1 + delta))%Q.
Proof.
  intros y R. unfold binary_round.
  pose proof (shl_align_spec m e (fexp prec emax (Zpos (digits2_pos m) + e)))
    as [Sm Se].
  pose proof (shl_align_value m e (fexp prec emax (Zpos (digits2_pos m) + e)))
    as Sv.
  cbv zeta in Sm, Se.
  destruct (shl_align m e _) as [mz ez]. cbn [fst snd] in Sm, Se, Sv.
  apply binary_round_aux_value; [| | exact R].
  - (* at least 53 bits *)
    pose proof (magnitude_bounds (Zpos m) e ltac:(lia)) as [Ml Mu].
    change (Zdigits2 (Zpos m)) with (Zpos (digits2_pos m)) in Ml, Mu.
    fold y in Ml, Mu. destruct R as [Rl Ru].
    assert (bpow (-990) < bpow (Zpos (digits2_pos m) + e))%Q as C by lra.
    apply bpow_lt_inv in C.
    rewrite fexp_normal in Sm by lia.
    pose proof (digits2_pos_bounds m) as [Dl Du].
    set (d := Zpos (digits2_pos m)) in *.
    rewrite Sm.
    destruct (Z.le_ge_cases 53 d) as [G | G].
    + replace (Z.max 0 (e - (d + e - 53))) with 0 by lia.
      change (2 ^ 0) with 1.
      pose proof (Z.pow_le_mono_r 2 52 (d - 1)). lia.
    + replace (Z.max 0 (e - (d + e - 53))) with (53 - d) by lia.
      assert (2 ^ 52 = 2 ^ (d - 1) * 2 ^ (53 - d)) as ->
          by (rewrite <- pow2_split by lia; f_equal; lia).
      apply Z.mul_le_mono_nonneg_r; [|exact Dl].
      apply Z.pow_nonneg. lia.
  - rewrite Sv. fold y. split; [apply Qle_refl|].
    pose proof (bpow_pos ez). 
    assert (y == inject_Z (Zpos mz) * bpow ez)%Q as E by (symmetry; exact Sv).
    nra.
Qed.

(** *** The operations on positive normal numbers *)

(** The value of a number, and the numbers the error bounds are about:
    positive, finite, with a full mantissa. *)
Definition F2Q (x : float) : Q := SF2Q (Prim2SF x).

Definition SFnormal (x : spec_float) : Prop :=
  exists m e, x = S754_finite false m e /\ 2 ^ 52 <= Zpos m < 2 ^ 53.

Definition Fnormal (x : float) : Prop := SFnormal (Prim2SF x).

(** [v] within [2^-50] of [y]. *)
Definition near (y v : Q) : Prop :=
  (y * (1 - delta) <= v <= y * (1 + delta))%Q.

Lemma SFnormal_pos (x : spec_float) : SFnormal x -> (0 < SF2Q x)%Q.
Proof.
  intros (m & e & -> & _). cbn [SF2Q]. pose proof (bpow_pos e).
  assert (0 < inject_Z (Zpos m))%Q by reflexivity. nra.
Qed.

Lemma SFadd_value (x y : spec_float) :
  SFnormal x -> SFnormal y ->
  (bpow (-990) <= SF2Q x + SF2Q y <= bpow 990)%Q ->
  SFnormal (SFadd prec emax x y) /\
  near (SF2Q x + SF2Q y) (SF2Q (SFadd prec emax x y)).
Proof.
  intros (mx & ex & -> & Hx) (my & ey & -> & Hy) R.
  cbn [SFadd SF2Q] in *. cbn [cond_Zopp].
  pose proof (shl_align_value mx ex (Z.min ex ey)) as Vx.
  pose proof (shl_align_value my ey (Z.min ex ey)) as Vy.
  pose proof (shl_align_spec mx ex (Z.min ex ey)) as [_ Ex].
  pose proof (shl_align_spec my ey (Z.min ex ey)) as [_ Ey].
  cbv zeta in Ex, Ey.
  replace (ex - Z.max 0 (ex - Z.min ex ey)) with (Z.min ex ey) in Ex by lia.
  replace (ey - Z.max 0 (ey - Z.min ex ey)) with (Z.min ex ey) in Ey by lia.
  rewrite Ex in Vx. rewrite Ey in Vy.
  set (ez := Z.min ex ey) in *.
  set (a := fst (shl_align mx ex ez)) in *.
  set (b := fst (shl_align my ey ez)) in *.
  change (Zpos a + Zpos b) with (Zpos (a + b)).
  cbn [binary_normalize].
  assert (inject_Z (Zpos (a + b)) * bpow ez ==
          inject_Z (Zpos mx) * bpow ex + inject_Z (Zpos my) * bpow ey)%Q as E.
  { rewrite Pos2Z.inj_add, inject_Z_plus, <- Vx, <- Vy. ring. }
  destruct (binary_round_value false (a + b) ez) as (m & e & -> & Hm & N).
  { cbv zeta. rewrite E. exact R. }
  split; [exists m, e; split; [reflexivity | exact Hm]|].
  cbn [SF2Q]. unfold near in *. cbv zeta in N. rewrite E in N. exact N.
Qed.

Lemma SFmul_value (x y : spec_float) :
  SFnormal x -> SFnormal y ->
  (bpow (-990) <= SF2Q x * SF2Q y <= bpow 990)%Q ->
  SFnormal (SFmul prec emax x y) /\
  near (SF2Q x * SF2Q y) (SF2Q (SFmul prec emax x y)).
Proof.
  intros (mx & ex & -> & Hx) (my & ey & -> & Hy) R.
  cbn [SFmul SF2Q xorb] in *.
  assert (inject_Z (Zpos (mx * my)) * bpow (ex + ey) ==
          inject_Z (Zpos mx) * bpow ex * (inject_Z (Zpos my) * bpow ey))%Q as E.
  { rewrite Pos2Z.inj_mul, inject_Z_mult, bpow_add. ring. }
  destruct (binary_round_aux_value false (Zpos (mx * my)) (ex + ey) loc_Exact
              (inject_Z (Zpos mx) * bpow ex * (inject_Z (Zpos my) * bpow ey))%Q)
    as (m & e & -> & Hm & N).
  - rewrite Pos2Z.inj_mul. assert (0 < 2 ^ 52) by reflexivity. nia.
  - rewrite <- E. pose proof (bpow_pos (ex + ey)). split; [apply Qle_refl | nra].
  - exact R.
  - split; [exists m, e; split; [reflexivity | exact Hm]|].
    cbn [SF2Q]. exact N.
Qed.

Lemma SFnormal_magnitude (m : positive) (e : Z) :
  2 ^ 52 <= Zpos m < 2 ^ 53 ->
  (bpow (e + 52) <= inject_Z (Zpos m) * bpow e /\
   inject_Z (Zpos m) * bpow e < bpow (e + 53))%Q.
Proof.
  intros [L U]. rewrite Zle_Qle in L. rewrite Zlt_Qlt in U.
  rewrite <- bpow_Z in L, U by lia.
  rewrite !bpow_add. pose proof (bpow_pos e). split; nra.
Qed.

Lemma SFdiv_value (x y : spec_float) :
  SFnormal x -> SFnormal y ->
  (bpow (-980) <= SF2Q x / SF2Q y <= bpow 980)%Q ->
  SFnormal (SFdiv prec emax x y) /\
  near (SF2Q x / SF2Q y) (SF2Q (SFdiv prec emax x y)).
Proof.
  intros Nx Ny R.
  pose proof (SFnormal_pos x Nx) as Px. pose proof (SFnormal_pos y Ny) as Py.
  destruct Nx as (mx & ex & -> & Hx). destruct Ny as (my & ey & -> & Hy).
  cbn [SF2Q] in *.
  set (vx := (inject_Z (Zpos mx) * bpow ex)%Q) in *.
  set (vy := (inject_Z (Zpos my) * bpow ey)%Q) in *.
  pose proof (SFnormal_magnitude mx ex Hx) as [Xl Xu]. fold vx in Xl, Xu.
  pose proof (SFnormal_magnitude my ey Hy) as [Yl Yu]. fold vy in Yl, Yu.
  assert (vx / vy * vy == vx)%Q as Eq by (field; intro Z0; rewrite Z0 in Py; discriminate Py).
  (* the exponents are far from the thresholds *)
  assert (-985 <= ex - ey <= 985) as Re.
  { destruct R as [Rl Ru].
    pose proof (bpow_pos (ey + 52)). pose proof (bpow_pos (ex + 52)).
    pose proof (bpow_pos (-980)). pose proof (bpow_pos 980).
    set (qv := (vx / vy)%Q) in *.
    split.
    - assert (bpow (-980 + (ey + 52)) < bpow (ex + 53))%Q as C.
      { rewrite bpow_add.
        assert (bpow (-980) * bpow (ey + 52) <= bpow (-980) * vy)%Q by nra.
        assert (bpow (-980) * vy <= qv * vy)%Q by nra.
        lra. }
      apply bpow_lt_inv in C. lia.
    - assert (bpow (ex + 52) < bpow (980 + (ey + 53)))%Q as C.
      { rewrite (bpow_add 980).
        assert (qv * vy <= bpow 980 * vy)%Q by nra.
        assert (bpow 980 * vy < bpow 980 * bpow (ey + 53))%Q by nra.
        lra. }
      apply bpow_lt_inv in C. lia. }
  cbn [SFdiv xorb]. unfold SFdiv_core_binary.
  assert (Zdigits2 (Zpos mx) = 53) as ->
      by (apply Zdigits2_unique; [lia | change (53 - 1) with 52; lia]).
  assert (Zdigits2 (Zpos my) = 53) as ->
      by (apply Zdigits2_unique; [lia | change (53 - 1) with 52; lia]).
  rewrite fexp_normal by lia.
  replace (Z.min (53 + ex - (53 + ey) - 53) (ex - ey)) with (ex - ey - 53) by lia.
  replace (ex - ey - (ex - ey - 53)) with 53 by lia.
  cbv iota. rewrite Z.shiftl_mul_pow2 by lia.
  pose proof (Z_div_mod (Zpos mx * 2 ^ 53) (Zpos my) ltac:(lia)) as D.
  destruct (Z.div_eucl (Zpos mx * 2 ^ 53) (Zpos my)) as [q r].
  destruct D as [D1 D2].
  set (e' := ex - ey - 53).
  assert (2 ^ 52 <= q) as Hq.
  { assert (0 < 2 ^ 52) by reflexivity. assert (0 < 2 ^ 53) by reflexivity.
    nia. }
  assert (inject_Z q * bpow e' * vy <= vx /\
          vx < (inject_Z q + 1) * bpow e' * vy)%Q as [Q1 Q2].
  { assert (vx == inject_Z (Zpos mx * 2 ^ 53) * (bpow e' * bpow ey))%Q as ->.
    { assert (bpow ex == inject_Z (2 ^ 53) * (bpow e' * bpow ey))%Q as Eb.
      { rewrite <- (bpow_Z 53) by lia. rewrite <- !bpow_add.
        replace (53 + (e' + ey)) with ex by (unfold e'; lia). reflexivity. }
      unfold vx. rewrite inject_Z_mult, Eb. ring. }
    rewrite D1, inject_Z_plus, inject_Z_mult. unfold vy.
    pose proof (bpow_pos e'). pose proof (bpow_pos ey).
    assert (0 <= inject_Z r < inject_Z (Zpos my))%Q as [R1 R2].
    { split; [change 0%Q with (inject_Z 0); rewrite <- Zle_Qle; lia|].
      rewrite <- Zlt_Qlt. lia. }
    assert (0 < bpow e' * bpow ey)%Q by nra.
    split; nra. }
  destruct (binary_round_aux_value false q e' (new_location (Zpos my) r)
              (vx / vy)%Q Hq) as (m & e & -> & Hm & N).
  - split.
    + apply Qle_shift_div_l; [exact Py | exact Q1].
    + apply Qlt_shift_div_r; [exact Py | exact Q2].
  - destruct R as [Rl Ru]. split.
    + apply Qle_trans with (bpow (-980)); [apply bpow_le; lia | exact Rl].
    + apply Qle_trans with (bpow 980); [exact Ru | apply bpow_le; lia].
  - split; [exists m, e; split; [reflexivity | exact Hm]|].
    cbn [SF2Q]. exact N.
Qed.

(** *** The operations of [float] *)

Lemma Fadd_value (x y : float) :
  Fnormal x -> Fnormal y ->
  (bpow (-990) <= F2Q x + F2Q y <= bpow 990)%Q ->
  Fnormal (x + y) /\ near (F2Q x + F2Q y) (F2Q (x + y)).
Proof.
  unfold Fnormal, F2Q. rewrite add_spec. apply SFadd_value.
Qed.

Lemma Fmul_value (x y : float) :
  Fnormal x -> Fnormal y ->
  (bpow (-990) <= F2Q x * F2Q y <= bpow 990)%Q ->
  Fnormal (x * y) /\ near (F2Q x * F2Q y) (F2Q (x * y)).
Proof.
  unfold Fnormal, F2Q. rewrite mul_spec. apply SFmul_value.
Qed.

Lemma Fdiv_value (x y : float) :
  Fnormal x -> Fnormal y ->
  (bpow (-980) <= F2Q x / F2Q y <= bpow 980)%Q ->
  Fnormal (x / y) /\ near (F2Q x / F2Q y) (F2Q (x / y)).
Proof.
  unfold Fnormal, F2Q. rewrite div_spec. apply SFdiv_value.
Qed.

Lemma Fnormal_pos (x : float) : Fnormal x -> (0 < F2Q x)%Q.
Proof. apply SFnormal_pos. Qed.

Lemma bpow_990_ge (q : Q) : (q <= inject_Z (2 ^ 100))%Q -> (q <= bpow 990)%Q.
Proof.
  intro L. apply Qle_trans with (bpow 100).
  - rewrite bpow_Z by lia. exact L.
  - apply bpow_le. lia.
Qed.

Lemma bpow_m990_le (q : Q) : (1 # 1024 <= q)%Q -> (bpow (-990) <= q)%Q.
Proof.
  intro L. apply Qle_trans with (bpow (-10)); [apply bpow_le; lia|].
  change (bpow (-10)) with (/ (1024 # 1))%Q. exact L.
Qed.

Lemma bpow_980_ge (q : Q) : (q <= inject_Z (2 ^ 100))%Q -> (q <= bpow 980)%Q.
Proof.
  intro L. apply Qle_trans with (bpow 100).
  - rewrite bpow_Z by lia. exact L.
  - apply bpow_le. lia.
Qed.

(** An integer from 1 to [2^53] as a number. *)
Lemma bpow_m980_small (q : Q) : (1 # (2 ^ 100) <= q)%Q -> (bpow (-980) <= q)%Q.
Proof.
  intro L. apply Qle_trans with (bpow (-100)); [apply bpow_le; lia|].
  apply Qle_trans with (1 # 2 ^ 100)%Q; [|exact L].
  vm_compute. discriminate.
Qed.

Lemma bpow_m990_small (q : Q) : (1 # (2 ^ 100) <= q)%Q -> (bpow (-990) <= q)%Q.
Proof.
  intro L. apply Qle_trans with (bpow (-980)); [apply bpow_le; lia|].
  apply bpow_m980_small, L.
Qed.

End Rounding.
Import Rounding.

(** ** The numbers of the engine *)

Lemma Z2F_value (c : Z) :
  1 <= c <= 2 ^ 53 ->
  Fnormal (Z2F c) /\ near (inject_Z c) (F2Q (Z2F c)).
Proof.
  intros [L U]. unfold Fnormal, F2Q, Z2F.
  destruct (c <? 0) eqn:E; [lia|].
  rewrite of_uint63_spec, Uint63.of_Z_spec.
  assert (2 ^ 53 < wB) as W by reflexivity.
  rewrite Z.mod_small by lia.
  destruct c as [|p|p]; try lia. cbn [binary_normalize].
  destruct (binary_round_value false p 0) as (m & e & -> & Hm & N).
  - cbv zeta. change (bpow 0) with 1%Q. rewrite Qmult_1_r. split.
    + apply bpow_m990_le. apply Qle_trans with 1%Q; [discriminate|].
      change 1%Q with (inject_Z 1). rewrite <- Zle_Qle. lia.
    + apply bpow_990_ge. rewrite <- Zle_Qle.
      assert (2 ^ 53 <= 2 ^ 100) by (apply Z.pow_le_mono_r; lia). lia.
  - split; [exists m, e; split; [reflexivity | exact Hm]|].
    cbn [SF2Q]. cbv zeta in N. change (bpow 0) with 1%Q in N.
    unfold near. rewrite Qmult_1_r in N. exact N.
Qed.

Lemma CATEGORY_WEIGHT_value (cat : RiskCategory) :
  Fnormal (CATEGORY_WEIGHT cat) /\
  (1 # 4 <= F2Q (CATEGORY_WEIGHT cat) <= 1)%Q.
Proof.
  destruct cat; (split; [eexists; eexists; split; [reflexivity|];
                         split; vm_compute; congruence|]);
    split; vm_compute; congruence.
Qed.

(** ** The weighted average *)

Definition weightedSumFrom (s : float) (l : list ClassifiedArticle) : float :=
  fold_left
    (fun s a => (s + articleScore a * CATEGORY_WEIGHT (riskCategory a))%float)
    l s.

Definition totalWeightFrom (t : float) (l : list ClassifiedArticle) : float :=
  fold_left (fun t a => (t + CATEGORY_WEIGHT (riskCategory a))%float) l t.

Lemma weightedSums_split (l : list ClassifiedArticle) :
  weightedSums l = (weightedSumFrom 0 l, totalWeightFrom 0 l).
Proof.
  unfold weightedSums, weightedSumFrom, totalWeightFrom.
  generalize 0%float at 1 3. generalize 0%float.
  induction l as [|a l IH]; intros t s; [reflexivity|].
  cbn [fold_left fst snd]. apply IH.
Qed.

(** Adding to [+0] changes nothing. *)
Lemma Fzero_add (w : float) : Fnormal w -> (0 + w)%float = w.
Proof.
  intros (m & e & E & _). apply Prim2SF_inj.
  rewrite add_spec, E. reflexivity.
Qed.

(** The slack of the bound on the total weight: [1 + 2^-16]. *)
Definition wcap : Q := 65537 # 65536.

Lemma totalWeight_normal (l : list ClassifiedArticle) :
  forall (t : float) (k : Z),
    1 <= k -> k + Z.of_nat (List.length l) <= 2 ^ 32 ->
    Fnormal t -> (1 # 4 <= F2Q t <= inject_Z k * wcap)%Q ->
    Fnormal (totalWeightFrom t l).
Proof.
  induction l as [|a l IH]; intros t k K L N [Vl Vu]; [exact N|].
  cbn [totalWeightFrom fold_left]. fold (totalWeightFrom (t + CATEGORY_WEIGHT (riskCategory a)) l).
  cbn [List.length] in L.
  destruct (CATEGORY_WEIGHT_value (riskCategory a)) as (Nw & Wl & Wu).
  assert (inject_Z k <= 4294967296)%Q as Kq.
  { change 4294967296%Q with (inject_Z (2 ^ 32)). rewrite <- Zle_Qle. lia. }
  assert (1 <= inject_Z k)%Q as Kq1.
  { change 1%Q with (inject_Z 1). rewrite <- Zle_Qle. lia. }
  unfold wcap in *.
  destruct (Fadd_value t _ N Nw) as (N' & Al & Au).
  { split; [apply bpow_m990_le; lra | apply bpow_990_ge].
    change (inject_Z (2 ^ 100)) with (1267650600228229401496703205376 # 1)%Q.
    lra. }
  apply (IH _ (k + 1)); [lia | lia | exact N' |].
  unfold delta in *. rewrite inject_Z_plus. change (inject_Z 1) with 1%Q.
  split; lra.
Qed.

Lemma totalWeight_first (a : ClassifiedArticle) (l : list ClassifiedArticle) :
  1 + Z.of_nat (List.length l) <= 2 ^ 32 ->
  Fnormal (totalWeightFrom 0 (a :: l)).
Proof.
  intro L. cbn [totalWeightFrom fold_left].
  fold (totalWeightFrom (0 + CATEGORY_WEIGHT (riskCategory a)) l).
  destruct (CATEGORY_WEIGHT_value (riskCategory a)) as (Nw & Wl & Wu).
  rewrite (Fzero_add _ Nw).
  apply (totalWeight_normal l _ 1); [lia | exact L | exact Nw |].
  unfold wcap. change (inject_Z 1) with 1%Q. split; lra.
Qed.

(** Signs of sums and quotients. *)
Lemma SFadd_signed (x y : spec_float) :
  SFsigned false x -> SFsigned false y ->
  SFsigned false (SFadd prec emax x y).
Proof.
  destruct x as [sx|sx| |sx mx ex], y as [sy|sy| |sy my ey];
    cbn [SFsigned SFadd]; try tauto; try (intros -> ->; reflexivity).
  intros -> ->. cbn [cond_Zopp].
  change (Zpos (fst (shl_align mx ex (Z.min ex ey))) +
          Zpos (fst (shl_align my ey (Z.min ex ey))))
    with (Zpos (fst (shl_align mx ex (Z.min ex ey)) +
                fst (shl_align my ey (Z.min ex ey)))).
  cbn [binary_normalize]. apply binary_round_signed.
Qed.

Lemma SFdiv_signed (x : spec_float) (m : positive) (e : Z) :
  SFsigned false x ->
  SFsigned false (SFdiv prec emax x (S754_finite false m e)).
Proof.
  destruct x as [sx|sx| |sx mx ex]; cbn [SFsigned SFdiv];
    try tauto; try (intros ->; reflexivity).
  intros ->. unfold SFdiv_core_binary.
  set (s := ex - e - _).
  set (m' := match s with Zpos _ => Z.shiftl (Zpos mx) s | 0 => Zpos mx | Zneg _ => 0 end).
  assert (0 <= m') as P.
  { unfold m'. destruct s; try lia. apply Z.shiftl_nonneg. lia. }
  pose proof (Z_div_mod m' (Zpos m) ltac:(lia)) as D.
  destruct (Z.div_eucl m' (Zpos m)) as [q r]. destruct D as [D1 D2].
  apply binary_round_aux_signed. nia.
Qed.

Lemma weightedSum_signed (l : list ClassifiedArticle) :
  forall s,
    SFsigned false (Prim2SF s) ->
    (forall a, In a l -> SFsigned false (Prim2SF (articleScore a))) ->
    SFsigned false (Prim2SF (weightedSumFrom s l)).
Proof.
  induction l as [|a l IH]; intros s S A; [exact S|].
  cbn [weightedSumFrom fold_left].
  apply IH; [|intros b I; apply A; right; exact I].
  rewrite add_spec, mul_spec. apply SFadd_signed; [exact S|].
  destruct (CATEGORY_WEIGHT_finite (riskCategory a)) as (m & e & ->).
  apply SFmul_signed, A. left. reflexivity.
Qed.

Lemma scoreArticle_signed `{JsString} (category : RiskCategory) (text : string) :
  SFsigned false (Prim2SF (scoreArticle category text)).
Proof.
  unfold scoreArticle.
  destruct (severityBoost_values text) as [-> | [-> | [-> | ->]]];
    destruct category; vm_compute; reflexivity.
Qed.

Lemma Z2F_FN (k : Z) : FN (Z2F k).
Proof.
  unfold Z2F. destruct (k <? 0) eqn:E.
  - unfold FN. rewrite opp_spec, of_uint63_spec.
    pose proof (Uint63.to_Z_bounded (Uint63.of_Z (- k))) as [B _].
    destruct (Uint63.to_Z (Uint63.of_Z (- k))) as [|m|m]; try lia.
    + discriminate.
    + cbn [binary_normalize].
      pose proof (binary_round_signed false m 0) as S.
      destruct (binary_round prec emax false m 0); cbn [SFsigned] in S;
        try tauto; discriminate.
  - apply Z.ltb_ge in E. pose proof (Z2F_signed k E) as S.
    unfold Z2F in S. rewrite (proj2 (Z.ltb_ge k 0) E) in S.
    exact (SFsigned_notnan false _ S).
Qed.

Lemma Math_round_FN (x : float) : FN x -> FN (Math_round x).
Proof.
  intro N. unfold Math_round.
  destruct (Prim2SF x) as [s|s| |s m e] eqn:E; try exact N.
  destruct (0 <=? e); [exact N|].
  destruct (roundHalfUp s m e =? 0); [|apply Z2F_FN].
  destruct s; unfold FN, SFnotnan; discriminate.
Qed.

Lemma computeOverallScore_range (a : ClassifiedArticle)
    (l : list ClassifiedArticle) :
  1 + Z.of_nat (List.length l) <= 2 ^ 32 ->
  (forall b, In b (a :: l) -> SFsigned false (Prim2SF (articleScore b))) ->
  (0 <=? computeOverallScore (a :: l))%float = true /\
  (computeOverallScore (a :: l) <=? 100)%float = true.
Proof.
  intros L A. unfold computeOverallScore. rewrite weightedSums_split.
  destruct (0 <? totalWeightFrom 0 (a :: l))%float; [|split; reflexivity].
  apply clamp_range, Math_round_FN.
  unfold FN. rewrite div_spec.
  destruct (totalWeight_first a l L) as (m & e & -> & _).
  apply (SFsigned_notnan false), SFdiv_signed.
  apply weightedSum_signed; [reflexivity | exact A].
Qed.

(** C9.  For every list of articles (an array holds fewer than [2^32]
    elements), the overall score lies in [[0, 100]], and so does the score
    of every classified article. *)
Theorem scores_within_0_100 `{JsString} (rawArticles : list RawArticle) :
  Z.of_nat (List.length rawArticles) < 2 ^ 32 ->
  let r := classifyArticles rawArticles in
  ((0 <=? overallScore r)%float = true /\
   (overallScore r <=? 100)%float = true)
  /\ Forall (fun a => (0 <=? articleScore a)%float = true /\
                      (articleScore a <=? 100)%float = true)
       (articles r).
Proof.
  intros L r. split.
  - unfold r. cbn [overallScore classifyArticles].
    destruct rawArticles as [|a rest]; [split; reflexivity|].
    cbn [map]. apply computeOverallScore_range.
    + rewrite length_map. cbn [List.length] in L. lia.
    + intros b I. change (In b (map classifyArticle (a :: rest))) in I.
      apply in_map_iff in I. destruct I as (x & <- & _).
      apply scoreArticle_signed.
  - apply Forall_forall. intros a I. unfold r in I.
    cbn [articles classifyArticles] in I.
    apply in_map_iff in I. destruct I as (x & <- & _).
    apply scoreArticle_range.
Qed.

Definition sampleBatch : list RawArticle :=
  [ {| raw_title := "Oil prices SURGE amid war fears";
       raw_description := Some "Brent crude jumps";
       raw_source := SourceObject (Some "Wire");
       raw_url := "https://example.org/oil";
       raw_publishedAt := "2024-05-01T07:00:00Z" |};
    {| raw_title := "Market crash";
       raw_description := None;
       raw_source := SourceString "Desk";
       raw_url := "https://example.org/crash";
       raw_publishedAt := "2024-05-01T09:00:00Z" |};
    {| raw_title := "Hello world";
       raw_description := None;
       raw_source := SourceObject None;
       raw_url := "https://example.org/hello";
       raw_publishedAt := "2024-05-01T08:00:00Z" |} ].

Lemma scores_within_0_100_witness :
  let r := classifyArticles sampleBatch in
  ((0 <=? overallScore r)%float = true /\
   (overallScore r <=? 100)%float = true)
  /\ Forall (fun a => (0 <=? articleScore a)%float = true /\
                      (articleScore a <=? 100)%float = true)
       (articles r).
Proof. apply (scores_within_0_100 sampleBatch). reflexivity. Defined.

(** ** Percentages *)

Lemma hundred_value : Fnormal 100%float /\ (F2Q 100%float == 100)%Q.
Proof.
  split.
  - eexists; eexists; split; [reflexivity|]. split; vm_compute; congruence.
  - vm_compute. reflexivity.
Qed.

(** The integer [Math.round] returns on a small positive number. *)
Lemma Math_round_value (y : float) :
  Fnormal y -> (F2Q y <= 128)%Q ->
  exists k,
    Math_round y = Z2F k /\
    (inject_Z k <= F2Q y + (1 # 2) < inject_Z k + 1)%Q.
Proof.
  intros (m & e & E & Hm) U. unfold F2Q in U. rewrite E in U. cbn [SF2Q] in U.
  pose proof (SFnormal_magnitude m e Hm) as [Ml _].
  assert (e < 0) as Ne.
  { assert (bpow (e + 52) < bpow 8)%Q as C.
    { change (bpow 8) with 256%Q. lra. }
    apply bpow_lt_inv in C. lia. }
  exists (roundHalfUp false m e). split.
  - unfold Math_round. rewrite E.
    destruct (0 <=? e) eqn:C; [lia|].
    destruct (roundHalfUp false m e =? 0) eqn:K; [|reflexivity].
    apply Z.eqb_eq in K. rewrite K. reflexivity.
  - unfold F2Q. rewrite E. cbn [SF2Q].
    pose proof (roundHalfUp_spec false m e Ne) as [L R]. cbv zeta in L, R.
    cbn [cond_Zopp] in L, R.
    set (k := roundHalfUp false m e) in *.
    rewrite Zle_Qle in L. rewrite Zlt_Qlt in R.
    rewrite !inject_Z_mult, !inject_Z_plus, !inject_Z_mult in L, R.
    rewrite <- !bpow_Z in L, R by lia.
    change (inject_Z 2) with 2%Q in L, R. change (inject_Z 1) with 1%Q in R.
    assert (bpow (1 - e) * bpow (e - 1) == 1)%Q as E1.
    { rewrite <- bpow_add. replace (1 - e + (e - 1)) with 0 by lia. reflexivity. }
    assert (bpow (- e) * bpow (e - 1) == 1 # 2)%Q as E2.
    { rewrite <- bpow_add. replace (- e + (e - 1)) with (-1) by lia. reflexivity. }
    assert (2 * bpow (e - 1) == bpow e)%Q as E3.
    { rewrite <- bpow_succ. replace (e - 1 + 1) with e by lia. reflexivity. }
    pose proof (bpow_pos (e - 1)) as P.
    set (b1 := bpow (1 - e)) in *. set (b2 := bpow (- e)) in *.
    set (b3 := bpow (e - 1)) in *. set (b := bpow e) in *.
    unfold Z.succ in R. rewrite ?inject_Z_plus in R.
    change (inject_Z 1) with 1%Q in R.
    set (K := inject_Z k) in *. set (M := inject_Z (Zpos m)) in *.
    clearbody b1 b2 b3 b K M.
    assert (K * b1 * b3 <= (2 * M + b2) * b3)%Q as L' by nra.
    assert ((2 * M + b2) * b3 < (K + 1) * b1 * b3)%Q as R' by nra.
    assert (K * b1 * b3 == K)%Q as X1 by (rewrite <- Qmult_assoc, E1; ring).
    assert ((K + 1) * b1 * b3 == K + 1)%Q as X2
        by (rewrite <- Qmult_assoc, E1; ring).
    assert ((2 * M + b2) * b3 == M * b + (1 # 2))%Q as X3.
    { rewrite <- E3, <- E2. ring. }
    rewrite X1, X3 in L'. rewrite X2, X3 in R'. split; assumption.
Qed.

Lemma percentage_zero (t : Z) :
  1 <= t <= 2 ^ 32 -> percentage 0 t = Z2F 0.
Proof.
  intro R. unfold percentage.
  assert (2 ^ 32 <= 2 ^ 53) by (apply Z.pow_le_mono_r; lia).
  destruct (Z2F_value t ltac:(lia)) as ((m & e & E & _) & _).
  assert ((Z2F 0 / Z2F t)%float = 0%float) as ->.
  { apply Prim2SF_inj. rewrite div_spec, E. reflexivity. }
  reflexivity.
Qed.

(** The percentage of [c] articles among [t]: an integer within
    [1/2 + 1/100] of [100 * c / t]. *)
Lemma percentage_value (c t : Z) :
  1 <= c -> c <= t -> t <= 2 ^ 32 ->
  exists k,
    percentage c t = Z2F k /\
    (inject_Z k * inject_Z t <= 100 * inject_Z c + (51 # 100) * inject_Z t /\
     100 * inject_Z c - (51 # 100) * inject_Z t <= inject_Z k * inject_Z t)%Q.
Proof.
  intros C1 CT T32.
  assert (2 ^ 32 <= 2 ^ 53) by (apply Z.pow_le_mono_r; lia).
  destruct (Z2F_value c ltac:(lia)) as (Nc & Cl & Cu).
  destruct (Z2F_value t ltac:(lia)) as (Nt & Tl & Tu).
  pose proof (Fnormal_pos _ Nc) as Pc. pose proof (Fnormal_pos _ Nt) as Pt.
  assert (1 <= inject_Z c)%Q as Qc1
      by (change 1%Q with (inject_Z 1); rewrite <- Zle_Qle; lia).
  assert (inject_Z c <= inject_Z t)%Q as Qct by (rewrite <- Zle_Qle; lia).
  assert (inject_Z t <= 4294967296)%Q as Qt
      by (change 4294967296%Q with (inject_Z (2 ^ 32)); rewrite <- Zle_Qle; lia).
  set (C := inject_Z c) in *. set (T := inject_Z t) in *.
  set (vc := F2Q (Z2F c)) in *. set (vt := F2Q (Z2F t)) in *.
  unfold delta in *.
  assert (vc / vt * vt == vc)%Q as Eq
      by (field; intro Z0; rewrite Z0 in Pt; discriminate Pt).
  assert (1 # 1099511627776 <= vc / vt)%Q as Ql
      by (apply Qle_shift_div_l; [exact Pt | lra]).
  assert (vc / vt <= 101 # 100)%Q as Qu
      by (apply Qle_shift_div_r; [exact Pt | lra]).
  destruct (Fdiv_value (Z2F c) (Z2F t) Nc Nt) as (Nq & Dl & Du).
  { fold vc vt. split.
    - apply bpow_m980_small. apply Qle_trans with (1 # 1099511627776)%Q;
        [vm_compute; discriminate | exact Ql].
    - apply bpow_980_ge. apply Qle_trans with (101 # 100)%Q;
        [exact Qu | vm_compute; discriminate]. }
  fold vc vt in Dl, Du. unfold delta in Dl, Du. set (qv := (vc / vt)%Q) in *.
  set (vq := F2Q (Z2F c / Z2F t)) in *.
  destruct hundred_value as (N100 & E100).
  destruct (Fmul_value _ 100 Nq N100) as (Ny & Yl & Yu).
  { fold vq. rewrite E100. split.
    - apply bpow_m990_small.
      change (1 # 2 ^ 100)%Q with (1 # 1267650600228229401496703205376)%Q.
      lra.
    - apply bpow_990_ge.
      change (inject_Z (2 ^ 100)) with (1267650600228229401496703205376 # 1)%Q.
      lra. }
  fold vq in Yl, Yu. rewrite E100 in Yl, Yu. unfold delta in Yl, Yu.
  set (vy := F2Q (Z2F c / Z2F t * 100)) in *.
  destruct (Math_round_value _ Ny) as (k & Ek & Kl & Ku).
  { fold vy. lra. }
  fold vy in Kl, Ku.
  exists k. split; [exact Ek|].
  set (K := inject_Z k) in *.
  clearbody C T vc vt qv vq vy K.
  assert (0 <= qv)%Q as Pq by lra.
  assert (qv * T * (1 - (1 # 1125899906842624)) <= qv * vt)%Q as A1 by nra.
  assert (qv * vt <= qv * T * (1 + (1 # 1125899906842624)))%Q as A1' by nra.
  assert (vy * T <= 100 * (1 + (1 # 1125899906842624)) *
                      (1 + (1 # 1125899906842624)) * (qv * T))%Q as A2 by nra.
  assert (100 * (1 - (1 # 1125899906842624)) *
            (1 - (1 # 1125899906842624)) * (qv * T) <= vy * T)%Q as A2' by nra.
  assert (K * T <= vy * T + (1 # 2) * T)%Q as A3 by nra.
  assert (vy * T - (1 # 2) * T <= K * T)%Q as A3' by nra.
  set (P := (qv * T)%Q) in *. set (VT := (vy * T)%Q) in *.
  set (KT := (K * T)%Q) in *. set (QT := (qv * vt)%Q) in *.
  clearbody P VT KT QT.
  split; lra.
Qed.

(** ** Category breakdown *)

(** [count(category)]: the number of articles of the batch classified in
    the category. *)
Definition countOf (cat : RiskCategory) (l : list ClassifiedArticle) : Z :=
  Z.of_nat
    (List.length (filter (fun a => RiskCategory_eqb (riskCategory a) cat) l)).

Lemma countOf_cons (cat : RiskCategory) a l :
  countOf cat (a :: l) =
    (if RiskCategory_eqb (riskCategory a) cat then 1 else 0) + countOf cat l.
Proof.
  unfold countOf. cbn [filter].
  destruct (RiskCategory_eqb (riskCategory a) cat); cbn [List.length]; lia.
Qed.

Lemma countOf_nonneg (cat : RiskCategory) l : 0 <= countOf cat l.
Proof. unfold countOf. lia. Qed.

Lemma cb_get_incr (b : Breakdown Z) (c cat : RiskCategory) :
  cb_get (cb_incr b c) cat =
    cb_get b cat + (if RiskCategory_eqb c cat then 1 else 0).
Proof. destruct c, cat; reflexivity. Qed.

Lemma countLoop_spec (l : list ClassifiedArticle) :
  forall (acc : Breakdown Z) (cat : RiskCategory),
    cb_get (fold_left (fun counts a => cb_incr counts (riskCategory a)) l acc)
      cat = cb_get acc cat + countOf cat l.
Proof.
  induction l as [|a l IH]; intros acc cat.
  - cbn. unfold countOf. cbn. lia.
  - cbn [fold_left]. rewrite IH, cb_get_incr, countOf_cons. lia.
Qed.

Lemma countCategories_spec (l : list ClassifiedArticle) (cat : RiskCategory) :
  cb_get (countCategories l) cat = countOf cat l.
Proof.
  unfold countCategories. rewrite countLoop_spec. destruct cat; reflexivity.
Qed.

Lemma countOf_total (l : list ClassifiedArticle) :
  countOf Geopolitical l + countOf Monetary l + countOf Commodity l +
  countOf SupplyChain l + countOf General l = Z.of_nat (List.length l).
Proof.
  induction l as [|a l IH]; [reflexivity|].
  rewrite !countOf_cons. cbn [List.length].
  destruct (riskCategory a); cbn [RiskCategory_eqb]; lia.
Qed.

Lemma countOf_le (cat : RiskCategory) l :
  countOf cat l <= Z.of_nat (List.length l).
Proof.
  pose proof (countOf_total l).
  pose proof (countOf_nonneg Geopolitical l).
  pose proof (countOf_nonneg Monetary l).
  pose proof (countOf_nonneg Commodity l).
  pose proof (countOf_nonneg SupplyChain l).
  pose proof (countOf_nonneg General l).
  destruct cat; lia.
Qed.

Lemma countLoop_map (l : list ClassifiedArticle) :
  forall acc,
    fold_left (fun counts a => cb_incr counts (riskCategory a)) l acc =
    fold_left cb_incr (map riskCategory l) acc.
Proof.
  induction l as [|a l IH]; intro acc; [reflexivity|].
  cbn [fold_left map]. apply IH.
Qed.

(** The counts, and so the percentages, depend on the categories of the
    articles only. *)
Lemma countCategories_categories (l1 l2 : list ClassifiedArticle) :
  map riskCategory l1 = map riskCategory l2 ->
  countCategories l1 = countCategories l2 /\ totalOf l1 = totalOf l2.
Proof.
  intro E. split.
  - unfold countCategories. rewrite !countLoop_map, E. reflexivity.
  - unfold totalOf.
    rewrite <- (length_map riskCategory l1), <- (length_map riskCategory l2), E.
    reflexivity.
Qed.

Lemma percentage_int (c t : Z) :
  0 <= c <= t -> 1 <= t <= 2 ^ 32 ->
  exists k,
    percentage c t = Z2F k /\ 0 <= k <= 100 /\
    (inject_Z k * inject_Z t <= 100 * inject_Z c + (51 # 100) * inject_Z t /\
     100 * inject_Z c - (51 # 100) * inject_Z t <= inject_Z k * inject_Z t)%Q.
Proof.
  intros [C0 CT] [T1 T32].
  assert (1 <= inject_Z t)%Q as Qt
      by (change 1%Q with (inject_Z 1); rewrite <- Zle_Qle; lia).
  destruct (Z.eq_dec c 0) as [-> | N].
  - exists 0. split; [apply percentage_zero; lia|]. split; [lia|].
    change (inject_Z 0) with 0%Q. split; lra.
  - destruct (percentage_value c t ltac:(lia) CT T32) as (k & E & U & L).
    exists k. split; [exact E|]. split; [|split; assumption].
    assert (0 <= inject_Z c <= inject_Z t)%Q as [Qc0 Qct].
    { split; [change 0%Q with (inject_Z 0)|]; rewrite <- Zle_Qle; lia. }
    set (K := inject_Z k) in *. set (C := inject_Z c) in *.
    set (T := inject_Z t) in *.
    assert (K < 101)%Q as KU by (clearbody K C T; nra).
    assert (-1 < K)%Q as KL by (clearbody K C T; nra).
    unfold K in KU, KL.
    change 101%Q with (inject_Z 101) in KU.
    change (-1)%Q with (inject_Z (-1)) in KL.
    rewrite <- Zlt_Qlt in KU, KL. lia.
Qed.

(** Five rounded percentages of counts that add up to the total. *)
Lemma percentages_sum (c1 c2 c3 c4 c5 t k1 k2 k3 k4 k5 : Z) :
  1 <= t -> c1 + c2 + c3 + c4 + c5 = t ->
  (forall c k, In (c, k) [(c1, k1); (c2, k2); (c3, k3); (c4, k4); (c5, k5)] ->
     (inject_Z k * inject_Z t <= 100 * inject_Z c + (51 # 100) * inject_Z t /\
      100 * inject_Z c - (51 # 100) * inject_Z t
        <= inject_Z k * inject_Z t)%Q) ->
  98 <= k1 + k2 + k3 + k4 + k5 <= 102.
Proof.
  intros T1 S A.
  destruct (A c1 k1 ltac:(cbn; auto)) as [U1 L1].
  destruct (A c2 k2 ltac:(cbn; auto)) as [U2 L2].
  destruct (A c3 k3 ltac:(cbn; auto)) as [U3 L3].
  destruct (A c4 k4 ltac:(cbn; auto 6)) as [U4 L4].
  destruct (A c5 k5 ltac:(cbn; auto 7)) as [U5 L5].
  assert (1 <= inject_Z t)%Q as Qt
      by (change 1%Q with (inject_Z 1); rewrite <- Zle_Qle; lia).
  assert (inject_Z c1 + inject_Z c2 + inject_Z c3 + inject_Z c4 + inject_Z c5
          == inject_Z t)%Q as SQ.
  { rewrite <- !inject_Z_plus, S. reflexivity. }
  assert (inject_Z (k1 + k2 + k3 + k4 + k5) < inject_Z 103 /\
          inject_Z 97 < inject_Z (k1 + k2 + k3 + k4 + k5))%Q as [KU KL].
  { rewrite !inject_Z_plus.
    change (inject_Z 103) with 103%Q. change (inject_Z 97) with 97%Q.
    set (K1 := inject_Z k1) in *. set (K2 := inject_Z k2) in *.
    set (K3 := inject_Z k3) in *. set (K4 := inject_Z k4) in *.
    set (K5 := inject_Z k5) in *. set (T := inject_Z t) in *.
    set (C1 := inject_Z c1) in *. set (C2 := inject_Z c2) in *.
    set (C3 := inject_Z c3) in *. set (C4 := inject_Z c4) in *.
    set (C5 := inject_Z c5) in *.
    clearbody K1 K2 K3 K4 K5 T C1 C2 C3 C4 C5.
    assert ((K1 + K2 + K3 + K4 + K5) * T <= (10255 # 100) * T)%Q by lra.
    assert ((9745 # 100) * T <= (K1 + K2 + K3 + K4 + K5) * T)%Q by lra.
    split; nra. }
  rewrite <- Zlt_Qlt in KU, KL. lia.
Qed.

Lemma cb_get_computeBreakdown (counts : Breakdown Z) (total : Z)
    (cat : RiskCategory) :
  cb_get (computeBreakdown counts total) cat =
    percentage (cb_get counts cat) total.
Proof. destruct cat; reflexivity. Qed.

Lemma totalOf_nonempty (l : list ClassifiedArticle) :
  l <> [] -> totalOf l = Z.of_nat (List.length l).
Proof.
  intro N. unfold totalOf. destruct l as [|a l]; [congruence|].
  cbn [List.length]. destruct (Z.of_nat (S (List.length l)) =? 0) eqn:E;
    [apply Z.eqb_eq in E; lia | reflexivity].
Qed.

(** C7.  For a non-empty batch (an array holds fewer than [2^32]
    elements), each percentage of the breakdown is
    [round(count(category) / totalArticles * 100)], where the counts are
    the numbers of articles per category, add up to the number of
    articles, and do not depend on the scores; each percentage is an
    integer from 0 to 100, and the five of them sum to 100 within 4. *)
Theorem categoryBreakdown_percentages `{JsString}
    (rawArticles : list RawArticle) :
  rawArticles <> [] ->
  Z.of_nat (List.length rawArticles) < 2 ^ 32 ->
  let r := classifyArticles rawArticles in
  let total := Z.of_nat (List.length rawArticles) in
  (forall cat,
     cb_get (categoryBreakdown r) cat =
       Math_round (Z2F (countOf cat (articles r)) / Z2F total * 100)%float)
  /\ countOf Geopolitical (articles r) + countOf Monetary (articles r) +
     countOf Commodity (articles r) + countOf SupplyChain (articles r) +
     countOf General (articles r) = total
  /\ (forall l1 l2 : list ClassifiedArticle,
        map riskCategory l1 = map riskCategory l2 ->
        computeBreakdown (countCategories l1) (totalOf l1) =
        computeBreakdown (countCategories l2) (totalOf l2))
  /\ exists p : RiskCategory -> Z,
       (forall cat,
          cb_get (categoryBreakdown r) cat = Z2F (p cat) /\
          0 <= p cat <= 100)
       /\ 100 - 4 <= p Geopolitical + p Monetary + p Commodity +
                     p SupplyChain + p General <= 100 + 4.
Proof.
  intros NE L r total.
  set (cl := map classifyArticle rawArticles).
  assert (Z.of_nat (List.length cl) = total) as El
      by (unfold cl; rewrite length_map; reflexivity).
  assert (cl <> []) as NEc.
  { unfold cl. destruct rawArticles; [congruence | discriminate]. }
  assert (1 <= total) as T1.
  { rewrite <- El. destruct cl; [congruence | cbn [List.length]; lia]. }
  assert (forall cat,
            cb_get (categoryBreakdown r) cat = percentage (countOf cat cl) total)
    as Eb.
  { intro cat. unfold r. cbn [categoryBreakdown classifyArticles]. fold cl.
    rewrite cb_get_computeBreakdown, countCategories_spec,
      (totalOf_nonempty cl NEc), El. reflexivity. }
  change (articles r) with cl.
  split; [intro cat; rewrite Eb; reflexivity|].
  split; [rewrite countOf_total; exact El|].
  split.
  { intros l1 l2 E. destruct (countCategories_categories l1 l2 E) as [-> ->].
    reflexivity. }
  assert (forall cat, 0 <= countOf cat cl <= total) as Rc.
  { intro cat. split; [apply countOf_nonneg|].
    rewrite <- El. apply countOf_le. }
  destruct (percentage_int _ total (Rc Geopolitical) ltac:(lia))
    as (k1 & E1 & R1 & B1).
  destruct (percentage_int _ total (Rc Monetary) ltac:(lia))
    as (k2 & E2 & R2 & B2).
  destruct (percentage_int _ total (Rc Commodity) ltac:(lia))
    as (k3 & E3 & R3 & B3).
  destruct (percentage_int _ total (Rc SupplyChain) ltac:(lia))
    as (k4 & E4 & R4 & B4).
  destruct (percentage_int _ total (Rc General) ltac:(lia))
    as (k5 & E5 & R5 & B5).
  exists (fun cat =>
            match cat with
            | Geopolitical => k1 | Monetary => k2 | Commodity => k3
            | SupplyChain => k4 | General => k5
            end).
  split.
  - intro cat. rewrite Eb. destruct cat; split; assumption.
  - pose proof (percentages_sum
                  (countOf Geopolitical cl) (countOf Monetary cl)
                  (countOf Commodity cl) (countOf SupplyChain cl)
                  (countOf General cl) total k1 k2 k3 k4 k5 T1) as S.
    rewrite countOf_total in S. specialize (S El).
    assert (98 <= k1 + k2 + k3 + k4 + k5 <= 102) as [S1 S2].
    { apply S. intros c k I. cbn [In] in I.
      destruct I as [I | [I | [I | [I | [I | []]]]]];
        injection I as <- <-; assumption. }
    lia.
Qed.

Lemma categoryBreakdown_percentages_witness :
  let r := classifyArticles sampleBatch in
  exists p : RiskCategory -> Z,
    (forall cat,
       cb_get (categoryBreakdown r) cat = Z2F (p cat) /\ 0 <= p cat <= 100)
    /\ 100 - 4 <= p Geopolitical + p Monetary + p Commodity +
                  p SupplyChain + p General <= 100 + 4.
Proof.
  apply (categoryBreakdown_percentages sampleBatch);
    [discriminate | reflexivity].
Defined.

(** One article in each of three categories: 33 + 33 + 33 = 99. *)
Example categoryBreakdown_thirds :
  let counts := {| cbGeopolitical := 1; cbMonetary := 1; cbCommodity := 1;
                   cbSupplyChain := 0; cbGeneral := 0 |} in
  computeBreakdown counts 3 =
    {| cbGeopolitical := 33%float; cbMonetary := 33%float;
       cbCommodity := 33%float; cbSupplyChain := 0%float;
       cbGeneral := 0%float |}.
Proof. vm_compute. reflexivity. Qed.
